(** * Sampling core of async-profiler: thread filter and wall-clock engine

    A shallow embedding of [src/threadFilter.cpp] and [src/wallClock.cpp].

    - [ThreadFilter] is a sparse two-level bitmap keyed by OS thread id.  The
      chunk pointers live in the object, the chunks themselves on the C heap;
      both are modelled, so that "no chunk is freed or reallocated" is a
      statement about pointers and not about values.
    - [WallClock] is the sampling controller.  Its collaborators ([OS],
      [pthread_create], the shared [_running] flag) are oracles over an
      abstract world, and every call that leaves the process is logged. *)

From Stdlib Require Import ZArith Lia Ascii String.
From stdpp Require Import base option list gmap strings.

Local Open Scope Z_scope.

#[local] Set Warnings "-clear-no-such-hyp".

(** ** Machine integers *)

(** [(u32)x]: conversion of an integer to 32 bits unsigned wraps around. *)
Definition to_u32 (x : Z) : Z := x mod 2 ^ 32.

(** The values of C's [int]. *)
Definition is_int (x : Z) : Prop := - 2 ^ 31 <= x < 2 ^ 31.

(** ** ThreadFilter *)

Module ThreadFilter.

(** Addresses of heap blocks; a [u32*] is an [option loc], [None] being
    [NULL]. *)
Definition loc := positive.

(** The object's fields ([_bitmap], [_enabled]) together with the heap
    blocks that [calloc] has handed out.  A block is its array of [u32]
    words.  The mutex [_lock] only matters to interleavings and is not
    represented: every operation below is one sequential execution, with
    [__sync_or_and_fetch] and [__sync_and_and_fetch] as single steps. *)
Record State := mkState {
  _bitmap : list (option loc);
  _enabled : bool;
  heap : gmap loc (list Z)
}.

Definition with_bitmap (bm : list (option loc)) (s : State) : State :=
  mkState bm (_enabled s) (heap s).

Definition with_enabled (e : bool) (s : State) : State :=
  mkState (_bitmap s) e (heap s).

Definition with_heap (h : gmap loc (list Z)) (s : State) : State :=
  mkState (_bitmap s) (_enabled s) h.

(** How a history of calls is written down. *)
Inductive Op :=
| Init (filter : option string)
| Clear
| Add (thread_id : Z)
| Remove (thread_id : Z).

Section Filter.

(** [threadFilter.h] is not among the sources: the two sizes it declares
    are parameters.  [BITMAP_SIZE] is the size of one chunk in bytes,
    [MAX_BITMAPS] the number of chunk slots. *)
Variable BITMAP_SIZE : Z.
Variable MAX_BITMAPS : Z.

(** Modelled from the spec: a chunk of [BITMAP_SIZE] bytes covers
    [BITMAP_CAPACITY] thread identifiers, one bit each. *)
Definition BITMAP_CAPACITY : Z := BITMAP_SIZE * 8.

(** Number of [u32] words in a chunk. *)
Definition BITMAP_WORDS : nat := Z.to_nat (BITMAP_SIZE / 4).

(** The slot of [_bitmap] a thread id belongs to, as in
    [_bitmap[(u32)thread_id / BITMAP_CAPACITY]] of [add]. *)
Definition chunk_index (thread_id : Z) : nat :=
  Z.to_nat (to_u32 thread_id / BITMAP_CAPACITY).

(** Modelled from the spec: the accessor [word] is declared in
    [threadFilter.h]; a thread id maps to its word "via integer
    division/shift", 32 identifiers to a word. *)
Definition word_index (thread_id : Z) : nat :=
  Z.to_nat (Z.shiftr (to_u32 thread_id mod BITMAP_CAPACITY) 5).

(** [1 << (thread_id & 0x1f)], seen as the [u32] it is combined with. *)
Definition bit_mask (thread_id : Z) : Z :=
  to_u32 (Z.shiftl 1 (Z.land thread_id 31)).

(** [~(1 << (thread_id & 0x1f))], seen as a [u32]. *)
Definition bit_mask_inv (thread_id : Z) : Z :=
  to_u32 (Z.lnot (Z.shiftl 1 (Z.land thread_id 31))).

(** Modelled from the spec: the accessor [bitmap] is declared in
    [threadFilter.h]; it "locates the chunk" of a thread id, that is, reads
    the slot [add] writes.  The outer [None] is a read past the end of
    [_bitmap], which C leaves undefined. *)
Definition bitmap (thread_id : Z) (s : State) : option (option loc) :=
  _bitmap s !! chunk_index thread_id.

(** Reading [word(b, thread_id)]; [None] when [b] is not a live block or the
    word lies outside of it. *)
Definition load_word (b : loc) (thread_id : Z) (s : State) : option Z :=
  ws ← heap s !! b; ws !! word_index thread_id.

(** Writing [word(b, thread_id)]. *)
Definition store_word (b : loc) (thread_id : Z) (v : Z) (s : State)
  : option State :=
  ws ← heap s !! b;
  if decide (word_index thread_id < length ws)%nat
  then Some (with_heap (<[b := <[word_index thread_id := v]> ws]> (heap s)) s)
  else None.

(** [calloc(1, n)] when it returns a block: one the heap did not hold,
    filled with zeros.  The other outcome, [NULL], is in [calloc_or_null]
    below. *)
Definition calloc (n : Z) (s : State) : loc * State :=
  let p := fresh (dom (heap s)) in
  (p, with_heap (<[p := replicate (Z.to_nat (n / 4)) 0]> (heap s)) s).

(** [memset(b, 0, n)] over a block of words. *)
Definition memset0 (b : loc) (n : Z) (s : State) : option State :=
  ws ← heap s !! b;
  let k := Z.to_nat (n / 4) in
  if decide (k ≤ length ws)%nat
  then Some (with_heap (<[b := replicate k 0 ++ drop k ws]> (heap s)) s)
  else None.

(** [_bitmap[(u32)thread_id / BITMAP_CAPACITY] = b]. *)
Definition set_bitmap (thread_id : Z) (b : option loc) (s : State)
  : option State :=
  if decide (chunk_index thread_id < length (_bitmap s))%nat
  then Some (with_bitmap (<[chunk_index thread_id := b]> (_bitmap s)) s)
  else None.

(** [ThreadFilter::ThreadFilter()], on an empty heap. *)
Definition new : State :=
  mkState (replicate (Z.to_nat MAX_BITMAPS) None) false ∅.

(** [ThreadFilter::init]. *)
Definition init (filter : option string) (s : State) : State :=
  with_enabled (bool_decide (filter ≠ None)) s.

(** Modelled from the spec: the accessor [enabled()] of [threadFilter.h]
    tells "whether filtering is active". *)
Definition enabled (s : State) : bool := _enabled s.

(** One round of the loop of [clear]. *)
Definition clear_slot (i : nat) (s : State) : option State :=
  b ← _bitmap s !! i;
  match b with
  | Some p => memset0 p BITMAP_SIZE s
  | None => Some s
  end.

Fixpoint clear_from (i : nat) (n : nat) (s : State) : option State :=
  match n with
  | O => Some s
  | S n' => s' ← clear_slot i s; clear_from (S i) n' s'
  end.

(** [ThreadFilter::clear]: [for (i = 0; i < MAX_BITMAPS; i++)]. *)
Definition clear (s : State) : option State :=
  clear_from 0 (Z.to_nat MAX_BITMAPS) s.

(** [ThreadFilter::accept]. *)
Definition accept (thread_id : Z) (s : State) : option bool :=
  b ← bitmap thread_id s;
  match b with
  | None => Some false
  | Some p =>
      w ← load_word p thread_id s;
      Some (negb (Z.land w (bit_mask thread_id) =? 0))
  end.

(** The first half of [add]: find the chunk, or allocate and publish it
    under the lock after looking a second time. *)
Definition chunk_for (thread_id : Z) (s : State) : option (loc * State) :=
  b ← bitmap thread_id s;
  match b with
  | Some p => Some (p, s)
  | None =>
      b' ← bitmap thread_id s;
      match b' with
      | Some p => Some (p, s)
      | None =>
          let '(p, s1) := calloc BITMAP_SIZE s in
          s2 ← set_bitmap thread_id (Some p) s1;
          Some (p, s2)
      end
  end.

(** [ThreadFilter::add], on the run where [calloc], if it is called, returns
    a block; [add_under] below has both outcomes of [calloc]. *)
Definition add (thread_id : Z) (s : State) : option State :=
  '(b, s1) ← chunk_for thread_id s;
  w ← load_word b thread_id s1;
  store_word b thread_id (Z.lor w (bit_mask thread_id)) s1.

(** [ThreadFilter::remove]. *)
Definition remove (thread_id : Z) (s : State) : option State :=
  b ← bitmap thread_id s;
  match b with
  | None => Some s
  | Some p =>
      w ← load_word p thread_id s;
      store_word p thread_id (Z.land w (bit_mask_inv thread_id)) s
  end.

(** Running a history, oldest call first. *)
Definition exec (o : Op) (s : State) : option State :=
  match o with
  | Init f => Some (init f s)
  | Clear => clear s
  | Add t => add t s
  | Remove t => remove t s
  end.

Fixpoint run (ops : list Op) (s : State) : option State :=
  match ops with
  | [] => Some s
  | o :: ops' => s' ← exec o s; run ops' s'
  end.


(** *** Addressable identifiers, reachable states *)

(** The identifiers the filter can address: the [int]s below
    [MAX_BITMAPS * BITMAP_CAPACITY]. *)
Definition in_range (thread_id : Z) : Prop :=
  is_int thread_id ∧ 0 <= thread_id < MAX_BITMAPS * BITMAP_CAPACITY.

Definition op_in_range (o : Op) : Prop :=
  match o with
  | Add t | Remove t => in_range t
  | Init _ | Clear => True
  end.

(** The states a filter goes through: whatever a history of calls leads to
    from the constructor. *)
Definition reachable (s : State) : Prop :=
  ∃ ops, run ops new = Some s.

(** What the chunk table and the heap have to do with each other. *)
Record wf (s : State) : Prop := mkWf {
  wf_length : length (_bitmap s) = Z.to_nat MAX_BITMAPS;
  wf_block : ∀ i p, _bitmap s !! i = Some (Some p) →
             ∃ ws, heap s !! p = Some ws ∧ length ws = BITMAP_WORDS;
  wf_owned : ∀ i j p, _bitmap s !! i = Some (Some p) →
             _bitmap s !! j = Some (Some p) → i = j
}.

(** The identifiers a history has added and not removed since. *)
Fixpoint members (ops : list Op) (acc : gset Z) : gset Z :=
  match ops with
  | [] => acc
  | Init _ :: ops' => members ops' acc
  | Clear :: ops' => members ops' ∅
  | Add t :: ops' => members ops' ({[t]} ∪ acc)
  | Remove t :: ops' => members ops' (acc ∖ {[t]})
  end.



(** *** The destructor *)

(** [free(b)]: nothing on [NULL]; otherwise the block leaves the heap.
    Freeing what is not a live block is undefined. *)
Definition free (b : option loc) (s : State) : option State :=
  match b with
  | None => Some s
  | Some p =>
      if decide (is_Some (heap s !! p))
      then Some (with_heap (delete p (heap s)) s)
      else None
  end.

Fixpoint destroy_from (i : nat) (n : nat) (s : State) : option State :=
  match n with
  | O => Some s
  | S n' => b ← _bitmap s !! i; s' ← free b s; destroy_from (S i) n' s'
  end.

(** [ThreadFilter::~ThreadFilter]: [for (i = 0; i < MAX_BITMAPS; i++)
    free(_bitmap[i])]. *)
Definition destroy (s : State) : option State :=
  destroy_from 0 (Z.to_nat MAX_BITMAPS) s.

(** *** More on reachable states *)

(** The heap holds the chunks of the table and nothing else. *)
Definition accounted (s : State) : Prop :=
  ∀ p, is_Some (heap s !! p) ↔ ∃ i, _bitmap s !! i = Some (Some p).

(** Every word of every block is a [u32]. *)
Definition words_u32 (s : State) : Prop :=
  ∀ p ws, heap s !! p = Some ws → Forall (λ w, 0 <= w < 2 ^ 32) ws.

(** *** When [calloc] returns [NULL] *)

(** [calloc(1, n)] with both of its outcomes, [granted] telling which: a new
    block, or [NULL] and a heap left as it was. *)
Definition calloc_or_null (granted : bool) (n : Z) (s : State)
  : option loc * State :=
  if granted
  then let '(p, s1) := calloc n s in (Some p, s1)
  else (None, s).

(** The first half of [add] with that [calloc]: the result goes into the
    slot as it comes, [NULL] or not. *)
Definition chunk_for_or_null (granted : bool) (thread_id : Z) (s : State)
  : option (option loc * State) :=
  b ← bitmap thread_id s;
  match b with
  | Some p => Some (Some p, s)
  | None =>
      b' ← bitmap thread_id s;
      match b' with
      | Some p => Some (Some p, s)
      | None =>
          let '(b, s1) := calloc_or_null granted BITMAP_SIZE s in
          s2 ← set_bitmap thread_id b s1;
          Some (b, s2)
      end
  end.

(** [ThreadFilter::add] with that [calloc].  Line 60 takes [word(b,
    thread_id)] without a look at [b]: on [NULL] it writes through the null
    pointer, which is undefined. *)
Definition add_under (granted : bool) (thread_id : Z) (s : State)
  : option State :=
  '(b, s1) ← chunk_for_or_null granted thread_id s;
  p ← b;
  w ← load_word p thread_id s1;
  store_word p thread_id (Z.lor w (bit_mask thread_id)) s1.

(** A history under an allocator: [mem s] tells whether a [calloc] called in
    state [s] returns a block. *)
Definition exec_under (mem : State → bool) (o : Op) (s : State)
  : option State :=
  match o with
  | Add t => add_under (mem s) t s
  | _ => exec o s
  end.

Fixpoint run_under (mem : State → bool) (ops : list Op) (s : State)
  : option State :=
  match ops with
  | [] => Some s
  | o :: ops' => s' ← exec_under mem o s; run_under mem ops' s'
  end.

End Filter.

(** A filter to run examples on: chunks of 65536 bytes in 4096 slots,
    enabled, holding threads 7 and 8. *)
Definition demo_filter : State :=
  default (new 4096)
    (run 65536 4096 [Init (Some "7,8"%string); Add 7; Add 8] (new 4096)).

(** The same with thread 7 alone. *)
Definition demo_single : State :=
  default (new 4096)
    (run 65536 4096 [Init (Some "7"%string); Add 7] (new 4096)).

End ThreadFilter.


(** ** Arguments *)

(** The two fields of [Arguments] that [WallClock::start] reads. *)
Module Arguments.

Record t := mk {
  _interval : Z;
  _event : string
}.

End Arguments.

(** ** C strings *)

(** A [const char*] is modelled by a [string]; as C sees it, it ends at the
    first NUL, or where the [string] ends. *)
Definition NUL : ascii := ascii_of_nat 0.

Definition uchar (c : ascii) : Z := Z.of_nat (nat_of_ascii c).

Fixpoint c_str (s : string) : string :=
  match s with
  | EmptyString => EmptyString
  | String c s' => if decide (c = NUL) then EmptyString else String c (c_str s')
  end.

(** [strcmp] of libc: the difference of the first two bytes that differ,
    compared as [unsigned char], 0 when the terminator is reached first. *)
Fixpoint strcmp (a b : string) : Z :=
  match a, b with
  | EmptyString, EmptyString => 0
  | EmptyString, String d _ => - uchar d
  | String c _, EmptyString => uchar c
  | String c a', String d b' =>
      if decide (c = d)
      then if decide (c = NUL) then 0 else strcmp a' b'
      else uchar c - uchar d
  end.

(** ** WallClock *)

Module WallClock.

(** [Error]: [Error::OK], or an error with its message. *)
Inductive Error :=
| OK
| Err (message : string).

(** Linux numbers of the three signals ([signal.h]). *)
Definition SIGVTALRM : Z := 26.
Definition SIGPROF : Z := 27.
Definition SIGIO : Z := 29.

Definition THREADS_PER_TICK : Z := 8.
Definition WAKEUP_SIGNAL : Z := SIGIO.

(** The two handlers of the class. *)
Inductive Handler :=
| signalHandler
| wakeupHandler.

(** The fields of the engine; [_interval] and [_sample_idle_threads] are
    its static members.  [_thread] is [None] until a thread was created. *)
Record State := mkState {
  _interval : Z;
  _sample_idle_threads : bool;
  _running : bool;
  _thread : option nat
}.

(** What [start] changes outside of the object: the signal dispositions of
    the process, and the threads it has created (each by the routine it
    runs, [threadEntry] being the only one). *)
Record Process := mkProcess {
  handlers : gmap Z Handler;
  threads : list unit
}.

(** Modelled from the spec: [OS::installSignalHandler] of [os.h] installs
    the handler for the signal. *)
Definition installSignalHandler (signo : Z) (h : Handler) (p : Process)
  : Process :=
  mkProcess (<[signo := h]> (handlers p)) (threads p).

(** [pthread_create(&_thread, NULL, threadEntry, this)].  Whether it
    succeeds is the system's choice: [rc] is the code it returns.  On 0 a
    thread exists and [_thread] names it; otherwise nothing was created. *)
Definition pthread_create (rc : Z) (s : State) (p : Process)
  : Z * State * Process :=
  if decide (rc = 0)
  then (0,
        mkState (_interval s) (_sample_idle_threads s) (_running s)
                (Some (length (threads p))),
        mkProcess (handlers p) (threads p ++ [()]))
  else (rc, s, p).

(** Modelled from the spec: [OS::threadState] of [os.h] answers RUNNING,
    SLEEPING or something else; the code tells [THREAD_RUNNING] and
    [THREAD_SLEEPING] from the rest, which [THREAD_INVALID] stands for. *)
Inductive ThreadState :=
| THREAD_INVALID
| THREAD_RUNNING
| THREAD_SLEEPING.

(** Modelled from the spec: a [ThreadList] is a snapshot of the live thread
    identifiers, consumed by [next()], which answers -1 at the end.  It is
    represented by the identifiers not yet handed out. *)
Definition ThreadList := list Z.

Definition next (l : ThreadList) : Z * ThreadList :=
  match l with
  | [] => (-1, [])
  | thread_id :: rest => (thread_id, rest)
  end.

(** What surrounds the controller thread, over a state [W] of the world:
    the static methods of [OS], [nanosleep], and the shared flag [_running]
    as this thread reads it ([stop] writes it from another thread).  The
    identifiers of a [ThreadList] are [int]s, as the type of [next()] says. *)
Class Env (W : Type) := {
  OS_threadId : W → Z;
  OS_listThreads : W → ThreadList * W;
  OS_threadState : Z → W → ThreadState * W;
  OS_sendSignalToThread : Z → Z → W → bool * W;
  nanosleep : Z → Z → W → W;
  load_running : W → bool * W;
  OS_listThreads_int : ∀ w, Forall is_int (OS_listThreads w).1
}.

(** What the controller thread does that can be seen from outside. *)
Inductive Event :=
| EvRunning (value : bool)
| EvListThreads (ids : ThreadList)
| EvNext (thread_id : Z)
| EvDelete
| EvSignal (thread_id : Z) (state : ThreadState) (signo : Z) (delivered : bool)
| EvSleep (tv_sec tv_nsec : Z).

(** How the [for] loop of one tick is left. *)
Inductive Exit :=
| Budget
| Exhausted
| Undefined.

(** A tick: what it did, how it ended, [count] and [thread_list] at that
    point, and the world it leaves. *)
Record Tick (W : Type) := mkTick {
  tick_trace : list Event;
  tick_exit : Exit;
  tick_count : Z;
  tick_list : option ThreadList;
  tick_world : W
}.

Arguments mkTick {W}.
Arguments tick_trace {W}.
Arguments tick_exit {W}.
Arguments tick_count {W}.
Arguments tick_list {W}.
Arguments tick_world {W}.

(** How [timerLoop] is left, as far as it was followed. *)
Inductive Stop :=
| Returned
| Crashed
| StillRunning.

(** What [stop] asks of the thread library. *)
Inductive Call :=
| Kill (thread : nat) (signo : Z)
| Join (thread : nat).

(** [WallClock::stop]: clears [_running], then [pthread_kill] and
    [pthread_join] on [_thread].  Without a thread that [pthread_create] has
    filled in, the handle is not one the calls are defined on. *)
Definition stop (s : State) : option (State * list Call) :=
  thread ← _thread s;
  Some (mkState (_interval s) (_sample_idle_threads s) false (Some thread),
        [Kill thread WAKEUP_SIGNAL; Join thread]).

Section Engine.

(** [DEFAULT_INTERVAL] ([wallClock.h]) and [EVENT_WALL] ([arguments.h]) are
    declared outside of the sources at hand; so is the chunk size of the
    thread filter. *)
Variable DEFAULT_INTERVAL : Z.
Variable EVENT_WALL : string.
Variable BITMAP_SIZE : Z.

Context {W : Type} `{Env W}.

(** [WallClock::start]. *)
Definition start (args : Arguments.t) (rc : Z) (s : State) (p : Process)
  : Error * State * Process :=
  if decide (Arguments._interval args < 0)
  then (Err "interval must be positive", s, p)
  else
    let interval :=
      if decide (Arguments._interval args ≠ 0)
      then Arguments._interval args else DEFAULT_INTERVAL in
    let idle := bool_decide (strcmp (Arguments._event args) EVENT_WALL = 0) in
    let p := installSignalHandler SIGVTALRM signalHandler p in
    let p := installSignalHandler SIGPROF signalHandler p in
    let p := installSignalHandler WAKEUP_SIGNAL wakeupHandler p in
    let s := mkState interval idle true (_thread s) in
    let '(rc, s, p) := pthread_create rc s p in
    if decide (rc ≠ 0)
    then (Err "Unable to create timer thread", s, p)
    else (OK, s, p).

(** The locals of [timerLoop] that are set before the loop. *)
Record Locals := mkLocals {
  self : Z;
  thread_filter : ThreadFilter.State;
  thread_filter_enabled : bool;
  sample_idle_threads : bool;
  timeout : Z * Z
}.

(** Lines 114 to 119: look at the state of the thread, signal it or not.
    Gives the events, the new [count] and the new world. *)
Definition sample (c : Locals) (thread_id count : Z) (w : W)
  : list Event * Z * W :=
  let '(state, w) := OS_threadState thread_id w in
  match state with
  | THREAD_RUNNING =>
      let '(ok, w) := OS_sendSignalToThread thread_id SIGPROF w in
      ([EvSignal thread_id state SIGPROF ok],
       if ok then count + 1 else count, w)
  | THREAD_SLEEPING =>
      if sample_idle_threads c
      then
        let '(ok, w) := OS_sendSignalToThread thread_id SIGVTALRM w in
        ([EvSignal thread_id state SIGVTALRM ok],
         if ok then count + 1 else count, w)
      else ([], count, w)
  | THREAD_INVALID => ([], count, w)
  end.

(** The condition of line 110, [None] when [accept] is undefined. *)
Definition skipped (c : Locals) (thread_id : Z) : option bool :=
  if decide (thread_id = self c) then Some true
  else if thread_filter_enabled c
       then negb <$> ThreadFilter.accept BITMAP_SIZE thread_id (thread_filter c)
       else Some false.

Definition emit (evs : list Event) (t : Tick W) : Tick W :=
  mkTick (evs ++ tick_trace t) (tick_exit t) (tick_count t) (tick_list t)
         (tick_world t).

(** The [for] loop of lines 102 to 120, from the [thread_list] and [count]
    it is entered with.  The [match] is [thread_list->next()]: see [next]. *)
Fixpoint for_loop (c : Locals) (thread_list : ThreadList) (count : Z) (w : W)
  : Tick W :=
  if decide (count < THREADS_PER_TICK)
  then
    match thread_list with
    | [] => mkTick [EvNext (-1); EvDelete] Exhausted count None w
    | thread_id :: rest =>
        if decide (thread_id = -1)
        then mkTick [EvNext (-1); EvDelete] Exhausted count None w
        else
          match skipped c thread_id with
          | None => mkTick [EvNext thread_id] Undefined count (Some rest) w
          | Some true => emit [EvNext thread_id] (for_loop c rest count w)
          | Some false =>
              let '(evs, count, w) := sample c thread_id count w in
              emit (EvNext thread_id :: evs) (for_loop c rest count w)
          end
    end
  else mkTick [] Budget count (Some thread_list) w.

(** Lines 98 to 100: a new enumeration when none is held. *)
Definition acquire (thread_list : option ThreadList) (w : W)
  : list Event * ThreadList * W :=
  match thread_list with
  | None => let '(l, w) := OS_listThreads w in ([EvListThreads l], l, w)
  | Some l => ([], l, w)
  end.

(** [delete thread_list], which does nothing on [NULL]. *)
Definition delete (thread_list : option ThreadList) : list Event :=
  match thread_list with
  | None => []
  | Some _ => [EvDelete]
  end.

(** The [while] loop of lines 97 to 123 and the [delete] after it, followed
    for [fuel] rounds. *)
Fixpoint while_running (fuel : nat) (c : Locals)
    (thread_list : option ThreadList) (w : W) : list Event * Stop :=
  match fuel with
  | O => ([], StillRunning)
  | S fuel =>
      let '(running, w) := load_running w in
      if running
      then
        let '(evs, l, w) := acquire thread_list w in
        let t := for_loop c l 0 w in
        match tick_exit t with
        | Undefined => (EvRunning true :: evs ++ tick_trace t, Crashed)
        | _ =>
            let w := nanosleep (timeout c).1 (timeout c).2 (tick_world t) in
            let '(rest, stop) := while_running fuel c (tick_list t) w in
            (EvRunning true :: evs ++ tick_trace t
               ++ EvSleep (timeout c).1 (timeout c).2 :: rest, stop)
        end
      else (EvRunning false :: delete thread_list, Returned)
  end.

(** The traces of the [while] loop, round by round: it has not been
    followed further; [_running] was false; a tick ran into undefined
    behaviour; or a tick ended, the thread slept, and the loop went on. *)
Inductive loop_trace (c : Locals)
  : option ThreadList → list Event → Stop → Prop :=
| loop_open thread_list :
    loop_trace c thread_list [] StillRunning
| loop_returned thread_list :
    loop_trace c thread_list (EvRunning false :: delete thread_list) Returned
| loop_crashed thread_list w evs l w' :
    acquire thread_list w = (evs, l, w') →
    tick_exit (for_loop c l 0 w') = Undefined →
    loop_trace c thread_list
      (EvRunning true :: evs ++ tick_trace (for_loop c l 0 w')) Crashed
| loop_round thread_list w evs l w' rest stop :
    acquire thread_list w = (evs, l, w') →
    tick_exit (for_loop c l 0 w') ≠ Undefined →
    loop_trace c (tick_list (for_loop c l 0 w')) rest stop →
    loop_trace c thread_list
      (EvRunning true :: evs ++ tick_trace (for_loop c l 0 w')
         ++ EvSleep (timeout c).1 (timeout c).2 :: rest) stop.

(** [WallClock::timerLoop]. *)
Definition timerLoop (fuel : nat) (s : State) (filter : ThreadFilter.State)
    (w : W) : list Event * Stop :=
  let c := mkLocals (OS_threadId w) filter (ThreadFilter.enabled filter)
             (_sample_idle_threads s)
             (Z.quot (_interval s) 1000000000, Z.rem (_interval s) 1000000000)
  in
  while_running fuel c None w.

(** *** Reading a trace *)

(** How many events of a trace satisfy a test. *)
Definition occurrences (f : Event → bool) (tr : list Event) : nat :=
  length (filter (λ e, f e = true) tr).

Definition is_delivered (e : Event) : bool :=
  match e with EvSignal _ _ _ ok => ok | _ => false end.

Definition is_sleep (e : Event) : bool :=
  match e with EvSleep _ _ => true | _ => false end.

Definition is_running_true (e : Event) : bool :=
  match e with EvRunning true => true | _ => false end.

(** The number of signals of a trace that were delivered. *)
Definition delivered (tr : list Event) : Z :=
  Z.of_nat (occurrences is_delivered tr).

(** The identifiers [next()] handed out, in order. *)
Definition visited (tr : list Event) : list Z :=
  omap (λ e, match e with EvNext thread_id => Some thread_id | _ => None end)
       tr.

(** The signal and the observed state of the thread go together as lines
    115 to 118 pair them. *)
Definition routed (idle : bool) (e : Event) : Prop :=
  match e with
  | EvSignal _ state signo _ =>
      (state = THREAD_RUNNING ∧ signo = SIGPROF)
      ∨ (state = THREAD_SLEEPING ∧ signo = SIGVTALRM ∧ idle = true)
  | _ => True
  end.

(** No signal goes to a thread that was seen sleeping. *)
Definition spares_sleeping (e : Event) : Prop :=
  match e with
  | EvSignal _ state _ _ => state ≠ THREAD_SLEEPING
  | _ => True
  end.

(** No signal goes to the thread [me], nor, when filtering is on, to a
    thread the filter does not accept. *)
Definition respects_filter (me : Z) (filter : ThreadFilter.State) (e : Event)
  : Prop :=
  match e with
  | EvSignal thread_id _ _ _ =>
      thread_id ≠ me
      ∧ (ThreadFilter.enabled filter = true →
         ThreadFilter.accept BITMAP_SIZE thread_id filter = Some true)
  | _ => True
  end.

(** The events a tick is made of. *)
Definition in_tick (e : Event) : bool :=
  match e with
  | EvNext _ | EvDelete | EvSignal _ _ _ _ => true
  | _ => false
  end.

Definition is_running (e : Event) : bool :=
  match e with EvRunning _ => true | _ => false end.

(** What the trace goes on with after a sleep that follows the end of an
    enumeration: nothing yet, the last look at [_running], or a round that
    starts by listing the threads anew. *)
Definition fresh_round (tr : list Event) : Prop :=
  match tr with
  | [] => True
  | EvRunning false :: _ => True
  | EvRunning true :: EvListThreads _ :: _ => True
  | _ => False
  end.

(** How a trace of the [while] loop may begin: with a look at [_running],
    and, when that was true and no enumerator was held, with a new
    enumeration. *)
Definition begins (thread_list : option ThreadList) (tr : list Event) : Prop :=
  match tr with
  | [] => True
  | EvRunning false :: _ => True
  | EvRunning true :: tr' =>
      thread_list = None → ∃ ids tr'', tr' = EvListThreads ids :: tr''
  | _ => False
  end.



(** The thread a signal goes to is named by an [int]. *)
Definition int_ids (e : Event) : Prop :=
  match e with
  | EvSignal thread_id _ _ _ => is_int thread_id
  | _ => True
  end.

(** Every signal of the trace goes to [target]. *)
Definition only_signals (target : Z) (e : Event) : Prop :=
  match e with
  | EvSignal thread_id _ _ _ => thread_id = target
  | _ => True
  end.

(** *** Reading a trace, continued *)

(** The discipline of the enumerator, [held] telling whether one is held:
    [OS::listThreads] only when none is, [next] and [delete] only on one
    that is. *)
Fixpoint protocol (held : bool) (tr : list Event) : Prop :=
  match tr with
  | [] => True
  | EvListThreads _ :: tr' => held = false ∧ protocol true tr'
  | EvNext _ :: tr' => held = true ∧ protocol true tr'
  | EvDelete :: tr' => held = true ∧ protocol false tr'
  | _ :: tr' => protocol held tr'
  end.

(** Whether an enumerator is held after a trace. *)
Fixpoint held_after (held : bool) (tr : list Event) : bool :=
  match tr with
  | [] => held
  | EvListThreads _ :: tr' => held_after true tr'
  | EvDelete :: tr' => held_after false tr'
  | _ :: tr' => held_after held tr'
  end.

(** Every call of [next] hands out the head of what the enumerator held
    still holds, [held] being that rest ([None]: no enumerator). *)
Fixpoint in_order (held : option ThreadList) (tr : list Event) : Prop :=
  match tr with
  | [] => True
  | EvListThreads l :: tr' => in_order (Some l) tr'
  | EvNext thread_id :: tr' =>
      match held with
      | Some l => thread_id = (next l).1 ∧ in_order (Some (next l).2) tr'
      | None => False
      end
  | EvDelete :: tr' => in_order None tr'
  | _ :: tr' => in_order held tr'
  end.

(** What the enumerator still holds after a trace. *)
Fixpoint remaining (held : option ThreadList) (tr : list Event)
  : option ThreadList :=
  match tr with
  | [] => held
  | EvListThreads l :: tr' => remaining (Some l) tr'
  | EvNext _ :: tr' => remaining (held ≫= λ l, Some (next l).2) tr'
  | EvDelete :: tr' => remaining None tr'
  | _ :: tr' => remaining held tr'
  end.

(** A signal goes to the thread [next] has just handed out, [prev], and
    only one does. *)
Fixpoint paired (prev : option Z) (tr : list Event) : Prop :=
  match tr with
  | [] => True
  | EvNext thread_id :: tr' => paired (Some thread_id) tr'
  | EvSignal thread_id _ _ _ :: tr' => prev = Some thread_id ∧ paired None tr'
  | _ :: tr' => paired None tr'
  end.

(** The identifiers the enumerations of a trace have listed. *)
Fixpoint listed (tr : list Event) : list Z :=
  match tr with
  | [] => []
  | EvListThreads ids :: tr' => ids ++ listed tr'
  | _ :: tr' => listed tr'
  end.

(** A signal goes to one of [ids]. *)
Definition signal_among (ids : list Z) (e : Event) : Prop :=
  match e with
  | EvSignal thread_id _ _ _ => thread_id ∈ ids
  | _ => True
  end.

(** A sleep is asked for with a [timespec] that [nanosleep] accepts and that
    is not zero. *)
Definition valid_sleep (e : Event) : Prop :=
  match e with
  | EvSleep tv_sec tv_nsec =>
      0 <= tv_sec ∧ 0 <= tv_nsec < 1000000000
      ∧ 0 < 1000000000 * tv_sec + tv_nsec
  | _ => True
  end.

(** A signal is not the wakeup signal, and the process handles it with
    [signalHandler]. *)
Definition handled (p : Process) (e : Event) : Prop :=
  match e with
  | EvSignal _ _ signo _ =>
      signo ≠ WAKEUP_SIGNAL ∧ handlers p !! signo = Some signalHandler
  | _ => True
  end.

End Engine.

(** *** A world to run the engine in

    Twelve threads, 1 to 12, thread 1 being the controller.  A thread is
    running when its identifier is 1 modulo 3 and sleeping when it is 2;
    a signal reaches every thread but thread 4.  The world counts down the
    rounds [_running] stays true. *)
Definition demo_state (thread_id : Z) : ThreadState :=
  if decide (thread_id mod 3 = 1) then THREAD_RUNNING
  else if decide (thread_id mod 3 = 2) then THREAD_SLEEPING
  else THREAD_INVALID.

#[export] Instance demo_env : Env nat := {|
  OS_threadId _ := 1;
  OS_listThreads w := ([1; 2; 3; 4; 5; 6; 7; 8; 9; 10; 11; 12], w);
  OS_threadState thread_id w := (demo_state thread_id, w);
  OS_sendSignalToThread thread_id _ w := (bool_decide (thread_id ≠ 4), w);
  nanosleep _ _ w := w;
  load_running w := (bool_decide (w ≠ O), pred w);
  OS_listThreads_int _ := ltac:(repeat constructor; unfold is_int; lia)
|}.

End WallClock.

(** ** Bit arithmetic *)

Lemma to_u32_small x : 0 <= x < 2 ^ 32 → to_u32 x = x.
Proof. intros H. unfold to_u32. by apply Z.mod_small. Qed.

Lemma bit_index_bounds t : 0 <= Z.land t 31 < 32.
Proof.
  change 31 with (Z.ones 5). rewrite Z.land_ones by lia.
  apply Z.mod_pos_bound. lia.
Qed.

Lemma pow2_bit_index t : 0 < 2 ^ Z.land t 31 < 2 ^ 32.
Proof.
  pose proof (bit_index_bounds t) as Hk. split.
  - apply Z.pow_pos_nonneg; lia.
  - apply Z.pow_lt_mono_r; lia.
Qed.

Lemma bit_mask_pow2 t : ThreadFilter.bit_mask t = 2 ^ Z.land t 31.
Proof.
  unfold ThreadFilter.bit_mask. pose proof (bit_index_bounds t).
  pose proof (pow2_bit_index t).
  rewrite Z.shiftl_1_l. apply to_u32_small. lia.
Qed.

Lemma land_pow2_testbit w k :
  0 <= k → negb (Z.land w (2 ^ k) =? 0) = Z.testbit w k.
Proof.
  intros Hk. destruct (Z.testbit w k) eqn:Hb.
  - apply negb_true_iff, Z.eqb_neq. intros H0.
    assert (Z.testbit (Z.land w (2 ^ k)) k = true) as Ht.
    { rewrite Z.land_spec, Hb, Z.pow2_bits_true; done. }
    rewrite H0, Z.bits_0 in Ht. done.
  - apply negb_false_iff, Z.eqb_eq. apply Z.bits_inj'. intros n Hn.
    rewrite Z.land_spec, Z.bits_0, Z.pow2_bits_eqb by done.
    destruct (Z.eqb_spec k n) as [->|]; [by rewrite Hb | by rewrite andb_false_r].
Qed.

Lemma mask_test w t :
  negb (Z.land w (ThreadFilter.bit_mask t) =? 0) = Z.testbit w (Z.land t 31).
Proof.
  rewrite bit_mask_pow2. apply land_pow2_testbit, bit_index_bounds.
Qed.

Lemma testbit_or_mask w t k :
  0 <= k →
  Z.testbit (Z.lor w (ThreadFilter.bit_mask t)) k
  = Z.testbit w k || bool_decide (k = Z.land t 31).
Proof.
  intros Hk. pose proof (bit_index_bounds t).
  rewrite bit_mask_pow2, Z.lor_spec, Z.pow2_bits_eqb by lia.
  f_equal. case_bool_decide; [apply Z.eqb_eq | apply Z.eqb_neq]; lia.
Qed.

Lemma testbit_and_mask_inv w t k :
  0 <= k < 32 →
  Z.testbit (Z.land w (ThreadFilter.bit_mask_inv t)) k
  = Z.testbit w k && negb (bool_decide (k = Z.land t 31)).
Proof.
  intros Hk. pose proof (bit_index_bounds t).
  unfold ThreadFilter.bit_mask_inv, to_u32.
  rewrite Z.land_spec, Z.mod_pow2_bits_low, Z.lnot_spec by lia.
  rewrite Z.shiftl_1_l, Z.pow2_bits_eqb by lia.
  f_equal. f_equal. case_bool_decide; [apply Z.eqb_eq | apply Z.eqb_neq]; lia.
Qed.

(** ** ThreadFilter: addressing *)

Import ThreadFilter.

Section FilterFacts.

Variable BITMAP_SIZE : Z.
Variable MAX_BITMAPS : Z.

(** A chunk is a positive number of whole [u32] words. *)
Hypothesis size_pos : 0 < BITMAP_SIZE.
Hypothesis size_words : BITMAP_SIZE mod 4 = 0.

Local Abbreviation CAP := (BITMAP_CAPACITY BITMAP_SIZE).
Local Abbreviation WORDS := (BITMAP_WORDS BITMAP_SIZE).
Local Abbreviation chunk_index := (chunk_index BITMAP_SIZE).
Local Abbreviation word_index := (word_index BITMAP_SIZE).
Local Abbreviation in_range := (in_range BITMAP_SIZE MAX_BITMAPS).
Local Abbreviation op_in_range := (op_in_range BITMAP_SIZE MAX_BITMAPS).
Local Abbreviation wf := (wf BITMAP_SIZE MAX_BITMAPS).
Local Abbreviation reachable := (reachable BITMAP_SIZE MAX_BITMAPS).
Local Abbreviation new := (new MAX_BITMAPS).
Local Abbreviation bitmap := (bitmap BITMAP_SIZE).
Local Abbreviation load_word := (load_word BITMAP_SIZE).
Local Abbreviation store_word := (store_word BITMAP_SIZE).
Local Abbreviation set_bitmap := (set_bitmap BITMAP_SIZE).
Local Abbreviation chunk_for := (chunk_for BITMAP_SIZE).
Local Abbreviation accept := (accept BITMAP_SIZE).
Local Abbreviation add := (add BITMAP_SIZE).
Local Abbreviation remove := (remove BITMAP_SIZE).
Local Abbreviation clear_slot := (clear_slot BITMAP_SIZE).
Local Abbreviation clear_from := (clear_from BITMAP_SIZE).
Local Abbreviation clear := (clear BITMAP_SIZE MAX_BITMAPS).
Local Abbreviation exec := (exec BITMAP_SIZE MAX_BITMAPS).
Local Abbreviation run := (run BITMAP_SIZE MAX_BITMAPS).

Lemma capacity_words : CAP = 32 * (BITMAP_SIZE / 4).
Proof.
  unfold BITMAP_CAPACITY.
  pose proof (Z.div_mod BITMAP_SIZE 4 ltac:(lia)). lia.
Qed.

Lemma words_pos : 0 < BITMAP_SIZE / 4.
Proof. pose proof (Z.div_mod BITMAP_SIZE 4 ltac:(lia)). lia. Qed.

Lemma in_range_u32 t : in_range t → to_u32 t = t.
Proof.
  intros [[_ Hi] [H0 _]]. apply to_u32_small. lia.
Qed.

Lemma chunk_index_lt t :
  in_range t → (chunk_index t < Z.to_nat MAX_BITMAPS)%nat.
Proof.
  intros Ht. unfold ThreadFilter.chunk_index. rewrite (in_range_u32 t Ht).
  destruct Ht as [_ [H0 Hlt]].
  pose proof capacity_words. pose proof words_pos.
  assert (0 <= t / CAP) by (apply Z.div_pos; lia).
  assert (t / CAP < MAX_BITMAPS) by (apply Z.div_lt_upper_bound; lia).
  lia.
Qed.

Lemma word_index_lt t : (word_index t < WORDS)%nat.
Proof.
  unfold ThreadFilter.word_index, BITMAP_WORDS.
  pose proof capacity_words as Hc. pose proof words_pos as Hw.
  rewrite Z.shiftr_div_pow2 by lia. change (2 ^ 5) with 32.
  pose proof (Z.mod_pos_bound (to_u32 t) CAP ltac:(lia)) as Hm.
  assert (0 <= to_u32 t mod CAP / 32) by (apply Z.div_pos; lia).
  assert (to_u32 t mod CAP / 32 < BITMAP_SIZE / 4)
    by (apply Z.div_lt_upper_bound; lia).
  lia.
Qed.

(** Chunk, word and bit determine the identifier. *)
Lemma address_inj t t' :
  in_range t → in_range t' →
  chunk_index t = chunk_index t' →
  word_index t = word_index t' →
  Z.land t 31 = Z.land t' 31 →
  t = t'.
Proof.
  intros Ht Ht' Hc Hw Hb.
  unfold ThreadFilter.chunk_index, ThreadFilter.word_index in *.
  rewrite (in_range_u32 t Ht), (in_range_u32 t' Ht') in *.
  destruct Ht as [_ [H0 _]], Ht' as [_ [H0' _]].
  pose proof capacity_words as Hcap. pose proof words_pos as Hwp.
  rewrite !Z.shiftr_div_pow2 in Hw by lia. change (2 ^ 5) with 32 in Hw.
  change 31 with (Z.ones 5) in Hb. rewrite !Z.land_ones in Hb by lia.
  change (2 ^ 5) with 32 in Hb.
  apply Z2Nat.inj in Hc; [| apply Z.div_pos; lia ..].
  pose proof (Z.mod_pos_bound t CAP ltac:(lia)).
  pose proof (Z.mod_pos_bound t' CAP ltac:(lia)).
  apply Z2Nat.inj in Hw; [| apply Z.div_pos; lia ..].
  assert (t mod CAP mod 32 = t mod 32) as E1.
  { apply Z.mod_mod_divide. exists (BITMAP_SIZE / 4). lia. }
  assert (t' mod CAP mod 32 = t' mod 32) as E2.
  { apply Z.mod_mod_divide. exists (BITMAP_SIZE / 4). lia. }
  pose proof (Z.div_mod (t mod CAP) 32 ltac:(lia)).
  pose proof (Z.div_mod (t' mod CAP) 32 ltac:(lia)).
  pose proof (Z.div_mod t CAP ltac:(lia)).
  pose proof (Z.div_mod t' CAP ltac:(lia)).
  lia.
Qed.


(** ** ThreadFilter: the chunk table and the heap *)

Lemma wf_new : wf new.
Proof.
  split; simpl.
  - apply length_replicate.
  - intros i p [H _]%lookup_replicate. done.
  - intros i j p [H _]%lookup_replicate. done.
Qed.

(** Rewriting blocks in place, lengths kept, keeps the table sound. *)
Lemma wf_with_heap s h :
  wf s →
  (∀ q ws, heap s !! q = Some ws →
           ∃ ws', h !! q = Some ws' ∧ length ws' = length ws) →
  wf (with_heap h s).
Proof.
  intros [Hl Hb Ho] Hh. split; simpl; [done | | done].
  intros i p Hi. destruct (Hb i p Hi) as (ws & Hws & Hlen).
  destruct (Hh p ws Hws) as (ws' & Hws' & Hlen'). exists ws'. split; [done | lia].
Qed.

Lemma wf_store_block s p ws ws' :
  wf s → heap s !! p = Some ws → length ws' = length ws →
  wf (with_heap (<[p := ws']> (heap s)) s).
Proof.
  intros Hwf Hp Hlen. apply wf_with_heap; [done |].
  intros q wq Hq. destruct (decide (q = p)) as [-> | Hne].
  - rewrite lookup_insert_eq. exists ws'. split; [done | congruence].
  - rewrite lookup_insert_ne by done. eauto.
Qed.

Lemma store_word_wf s p t v s' :
  wf s → store_word p t v s = Some s' → wf s'.
Proof.
  intros Hwf Hst. unfold ThreadFilter.store_word in Hst.
  destruct (heap s !! p) as [ws |] eqn:Hp; simpl in Hst; [| done].
  case_decide; simplify_eq.
  eapply wf_store_block; [done | done | apply length_insert].
Qed.

Lemma store_word_frame s p t v s' :
  store_word p t v s = Some s' →
  _bitmap s' = _bitmap s ∧ _enabled s' = _enabled s
  ∧ dom (heap s') = dom (heap s).
Proof.
  intros Hst. unfold ThreadFilter.store_word in Hst.
  destruct (heap s !! p) as [ws |] eqn:Hp; simpl in Hst; [| done].
  case_decide; simplify_eq. simpl. repeat split.
  apply dom_insert_lookup_L. eauto.
Qed.

Lemma bitmap_is_Some s t : wf s → in_range t → is_Some (bitmap t s).
Proof.
  intros [Hl _ _] Ht. apply lookup_lt_is_Some_2. rewrite Hl.
  by apply chunk_index_lt.
Qed.

Lemma block_word s i p t :
  wf s → _bitmap s !! i = Some (Some p) →
  ∃ ws w, heap s !! p = Some ws ∧ length ws = WORDS
          ∧ ws !! word_index t = Some w.
Proof.
  intros [_ Hb _] Hi. destruct (Hb i p Hi) as (ws & Hws & Hlen).
  destruct (lookup_lt_is_Some_2 ws (word_index t)) as [w Hw].
  { rewrite Hlen. apply word_index_lt. }
  eauto 6.
Qed.

(** [accept] reads one bit of one word of the owning chunk. *)
Lemma accept_chunk s t p ws w :
  bitmap t s = Some (Some p) → heap s !! p = Some ws →
  ws !! word_index t = Some w →
  accept t s = Some (Z.testbit w (Z.land t 31)).
Proof.
  intros Hb Hp Hw. unfold ThreadFilter.accept, ThreadFilter.load_word.
  rewrite Hb. simpl. rewrite Hp. simpl. rewrite Hw. simpl.
  by rewrite mask_test.
Qed.

Lemma accept_null s t : bitmap t s = Some None → accept t s = Some false.
Proof. intros Hb. unfold ThreadFilter.accept. by rewrite Hb. Qed.

Lemma accept_is_Some s t : wf s → in_range t → is_Some (accept t s).
Proof.
  intros Hwf Ht. destruct (bitmap_is_Some s t Hwf Ht) as [[p |] Hb].
  - destruct (block_word s _ p t Hwf Hb) as (ws & w & Hp & _ & Hw).
    erewrite accept_chunk; eauto.
  - rewrite accept_null; eauto.
Qed.

(** Overwriting the word of [t] changes what [accept] says about the
    identifiers of that word, and about no other. *)
Lemma accept_store_word s p t v s' t' :
  wf s → bitmap t s = Some (Some p) →
  store_word p t v s = Some s' →
  accept t' s' =
    if decide (chunk_index t' = chunk_index t ∧ word_index t' = word_index t)
    then Some (Z.testbit v (Z.land t' 31))
    else accept t' s.
Proof.
  intros Hwf Hb Hst. pose proof Hst as Hst0.
  unfold ThreadFilter.store_word in Hst.
  destruct (heap s !! p) as [ws |] eqn:Hp; simpl in Hst; [| done].
  case_decide as Hlt; simplify_eq.
  unfold ThreadFilter.bitmap in Hb.
  unfold ThreadFilter.accept at 1, ThreadFilter.bitmap,
    ThreadFilter.load_word; simpl.
  case_decide as Hsame.
  - destruct Hsame as [Hc Hw]. rewrite Hc, Hb. simpl.
    rewrite lookup_insert_eq. simpl. rewrite Hw.
    rewrite list_lookup_insert_eq by done. simpl. by rewrite mask_test.
  - unfold ThreadFilter.accept, ThreadFilter.bitmap, ThreadFilter.load_word.
    destruct (_bitmap s !! chunk_index t') as [[q |] |] eqn:Hq; simpl;
      [| done | done].
    destruct (decide (q = p)) as [-> | Hne].
    + assert (chunk_index t' = chunk_index t) as Hc
        by (eapply (wf_owned _ _ _ Hwf); eauto).
      rewrite lookup_insert_eq, Hp. simpl.
      rewrite list_lookup_insert_ne; [done |]. intros Hw. apply Hsame. done.
    + by rewrite lookup_insert_ne.
Qed.

(** What [chunk_for] leaves behind when it returns: the chunk of [t] is
    there, and nobody's membership has changed. *)
Lemma chunk_for_sound s t p s1 :
  wf s → chunk_for t s = Some (p, s1) →
  wf s1 ∧ bitmap t s1 = Some (Some p)
  ∧ _enabled s1 = _enabled s
  ∧ (is_Some (heap s !! p) → s1 = s)
  ∧ ∀ t', accept t' s1 = accept t' s.
Proof.
  intros Hwf Hcf. unfold ThreadFilter.chunk_for in Hcf.
  destruct (bitmap t s) as [[q |] |] eqn:Hb; simpl in Hcf; [| | done].
  { by simplify_eq. }
  unfold ThreadFilter.set_bitmap in Hcf. simpl in Hcf.
  case_decide as Hlt; simpl in Hcf; simplify_eq.
  set (p := fresh (dom (heap s))).
  assert (heap s !! p = None) as Hfresh.
  { apply not_elem_of_dom. apply is_fresh. }
  assert (∀ i, _bitmap s !! i ≠ Some (Some p)) as Hnot.
  { intros i Hi. destruct (wf_block _ _ _ Hwf i p Hi) as (ws & Hws & _).
    congruence. }
  split; [| split; [| split; [| split]]].
  - split; simpl.
    + rewrite length_insert. apply (wf_length _ _ _ Hwf).
    + intros i q Hi. destruct (decide (i = chunk_index t)) as [-> | Hne].
      * rewrite list_lookup_insert_eq in Hi by done. simplify_eq.
        rewrite lookup_insert_eq. eexists. split; [done |].
        apply length_replicate.
      * rewrite list_lookup_insert_ne in Hi by done.
        destruct (wf_block _ _ _ Hwf i q Hi) as (ws & Hws & Hlen).
        exists ws. split; [| done]. rewrite lookup_insert_ne; [done |].
        intros ->. congruence.
    + intros i j q Hi Hj.
      destruct (decide (i = chunk_index t)) as [-> | Hi'];
        destruct (decide (j = chunk_index t)) as [-> | Hj']; [done | | |].
      * rewrite list_lookup_insert_eq in Hi by done.
        rewrite list_lookup_insert_ne in Hj by done. simplify_eq.
        by destruct (Hnot j).
      * rewrite list_lookup_insert_eq in Hj by done.
        rewrite list_lookup_insert_ne in Hi by done. simplify_eq.
        by destruct (Hnot i).
      * rewrite list_lookup_insert_ne in Hi, Hj by done.
        eapply (wf_owned _ _ _ Hwf); eauto.
  - unfold ThreadFilter.bitmap. simpl. by rewrite list_lookup_insert_eq.
  - done.
  - fold p. rewrite Hfresh. by intros [? ?].
  - intros t'. unfold ThreadFilter.accept at 1, ThreadFilter.bitmap,
      ThreadFilter.load_word. simpl.
    destruct (decide (chunk_index t' = chunk_index t)) as [Hc | Hc].
    + rewrite Hc, list_lookup_insert_eq by done. simpl.
      rewrite lookup_insert_eq. simpl.
      rewrite lookup_replicate_2 by apply word_index_lt. simpl.
      symmetry. apply accept_null. unfold ThreadFilter.bitmap.
      rewrite Hc. exact Hb.
    + rewrite list_lookup_insert_ne by done.
      unfold ThreadFilter.accept, ThreadFilter.bitmap, ThreadFilter.load_word.
      destruct (_bitmap s !! chunk_index t') as [[q |] |] eqn:Hq; simpl;
        [| done | done].
      rewrite lookup_insert_ne; [done |]. intros ->. by destruct (Hnot _ Hq).
Qed.

Lemma chunk_for_present s t p :
  bitmap t s = Some (Some p) → chunk_for t s = Some (p, s).
Proof. intros Hb. unfold ThreadFilter.chunk_for. by rewrite Hb. Qed.

Lemma chunk_for_is_Some s t : wf s → in_range t → is_Some (chunk_for t s).
Proof.
  intros Hwf Ht. destruct (bitmap_is_Some s t Hwf Ht) as [[p |] Hb].
  { rewrite (chunk_for_present s t p Hb). eauto. }
  unfold ThreadFilter.chunk_for. rewrite Hb. simpl.
  unfold ThreadFilter.set_bitmap. simpl.
  pose proof (chunk_index_lt t Ht) as Hlt.
  rewrite <- (wf_length _ _ _ Hwf) in Hlt.
  rewrite decide_True by done. simpl. eauto.
Qed.

(** In a sound state the word of a present chunk can be read and written. *)
Lemma word_access s t p :
  wf s → bitmap t s = Some (Some p) →
  (∃ w, load_word p t s = Some w) ∧ ∀ v, is_Some (store_word p t v s).
Proof.
  intros Hwf Hb. destruct (block_word s _ p t Hwf Hb) as (ws & w & Hp & Hl & Hw).
  unfold ThreadFilter.load_word, ThreadFilter.store_word. rewrite Hp. simpl.
  split; [eauto |]. intros v. rewrite decide_True; [eauto |].
  rewrite Hl. apply word_index_lt.
Qed.

Lemma accept_same_word s t t' p w :
  bitmap t s = Some (Some p) → load_word p t s = Some w →
  chunk_index t' = chunk_index t → word_index t' = word_index t →
  accept t' s = Some (Z.testbit w (Z.land t' 31)).
Proof.
  intros Hb Hl Hc Hw. unfold ThreadFilter.load_word in Hl.
  destruct (heap s !! p) as [ws |] eqn:Hp; simpl in Hl; [| done].
  eapply accept_chunk; [| done |].
  - unfold ThreadFilter.bitmap in *. by rewrite Hc.
  - by rewrite Hw.
Qed.

(** *** [add] *)

Lemma add_is_Some s t : wf s → in_range t → is_Some (add t s).
Proof.
  intros Hwf Ht. destruct (chunk_for_is_Some s t Hwf Ht) as [[p s1] Hcf].
  destruct (chunk_for_sound s t p s1 Hwf Hcf) as (Hwf1 & Hb1 & _).
  destruct (word_access s1 t p Hwf1 Hb1) as [[w Hw] Hst].
  unfold ThreadFilter.add. rewrite Hcf. simpl. rewrite Hw. simpl. apply Hst.
Qed.

Lemma add_sound s t s' :
  wf s → add t s = Some s' →
  wf s' ∧ _enabled s' = _enabled s
  ∧ bitmap t s' ≠ Some None
  ∧ ∀ t', in_range t → in_range t' →
          accept t' s' = if decide (t' = t) then Some true else accept t' s.
Proof.
  intros Hwf Hadd. unfold ThreadFilter.add in Hadd.
  destruct (chunk_for t s) as [[p s1] |] eqn:Hcf; simpl in Hadd; [| done].
  destruct (chunk_for_sound s t p s1 Hwf Hcf) as (Hwf1 & Hb1 & He1 & _ & Hacc1).
  destruct (load_word p t s1) as [w |] eqn:Hw; simpl in Hadd; [| done].
  destruct (store_word_frame _ _ _ _ _ Hadd) as (Hbm & Hen & _).
  split; [by eapply store_word_wf |]. split; [congruence |].
  split. { unfold ThreadFilter.bitmap in *. rewrite Hbm. congruence. }
  intros t' Ht Ht'.
  rewrite (accept_store_word s1 p t _ s' t' Hwf1 Hb1 Hadd).
  pose proof (bit_index_bounds t').
  case_decide as Hsame.
  - destruct Hsame as [Hc Hwi]. rewrite testbit_or_mask by lia.
    case_decide as Heq; [subst t'; by rewrite bool_decide_true, orb_true_r |].
    rewrite bool_decide_false, orb_false_r.
    + rewrite <- Hacc1. symmetry. by eapply accept_same_word.
    + intros Hbit. apply Heq. by apply address_inj.
  - case_decide as Heq; [subst t'; by destruct Hsame |]. apply Hacc1.
Qed.

(** *** [remove] *)

Lemma remove_is_Some s t : wf s → in_range t → is_Some (remove t s).
Proof.
  intros Hwf Ht. unfold ThreadFilter.remove.
  destruct (bitmap_is_Some s t Hwf Ht) as [[p |] Hb]; rewrite Hb; simpl;
    [| eauto].
  destruct (word_access s t p Hwf Hb) as [[w Hw] Hst].
  rewrite Hw. simpl. apply Hst.
Qed.

Lemma remove_sound s t s' :
  wf s → remove t s = Some s' →
  wf s' ∧ _enabled s' = _enabled s ∧ _bitmap s' = _bitmap s
  ∧ dom (heap s') = dom (heap s)
  ∧ ∀ t', in_range t → in_range t' →
          accept t' s' = if decide (t' = t) then Some false else accept t' s.
Proof.
  intros Hwf Hrm. unfold ThreadFilter.remove in Hrm.
  destruct (bitmap t s) as [[p |] |] eqn:Hb; simpl in Hrm; [| | done].
  - destruct (load_word p t s) as [w |] eqn:Hw; simpl in Hrm; [| done].
    destruct (store_word_frame _ _ _ _ _ Hrm) as (Hbm & Hen & Hdom).
    split; [by eapply store_word_wf |]. do 3 (split; [done |]).
    intros t' Ht Ht'.
    rewrite (accept_store_word s p t _ s' t' Hwf Hb Hrm).
    pose proof (bit_index_bounds t').
    case_decide as Hsame.
    + destruct Hsame as [Hc Hwi]. rewrite testbit_and_mask_inv by lia.
      case_decide as Heq;
        [subst t'; by rewrite bool_decide_true, andb_false_r |].
      rewrite bool_decide_false, andb_true_r.
      * symmetry. by eapply accept_same_word.
      * intros Hbit. apply Heq. by apply address_inj.
    + case_decide as Heq; [subst t'; by destruct Hsame | done].
  - simplify_eq. do 4 (split; [done |]). intros t' Ht Ht'.
    case_decide as Heq; [subst t'; by apply accept_null | done].
Qed.

(** *** [clear] *)

Lemma clear_slot_spec s i :
  wf s → (i < Z.to_nat MAX_BITMAPS)%nat →
  ∃ s', clear_slot i s = Some s' ∧ wf s'
        ∧ _bitmap s' = _bitmap s ∧ _enabled s' = _enabled s
        ∧ dom (heap s') = dom (heap s)
        ∧ ∀ j p, _bitmap s !! j = Some (Some p) →
                 heap s' !! p = if decide (j = i)
                                then Some (replicate WORDS 0)
                                else heap s !! p.
Proof.
  intros Hwf Hi. unfold ThreadFilter.clear_slot.
  destruct (lookup_lt_is_Some_2 (_bitmap s) i) as [b Hb].
  { by rewrite (wf_length _ _ _ Hwf). }
  rewrite Hb. simpl. destruct b as [p |].
  - destruct (wf_block _ _ _ Hwf i p Hb) as (ws & Hp & Hlen).
    unfold ThreadFilter.memset0. rewrite Hp. simpl.
    fold WORDS. rewrite decide_True by lia.
    rewrite drop_ge, app_nil_r by lia.
    eexists. split; [done |]. split; [| split; [| split; [| split]]].
    + eapply wf_store_block; [done | done |]. by rewrite length_replicate.
    + done.
    + done.
    + simpl. apply dom_insert_lookup_L. eauto.
    + intros j q Hj. simpl. case_decide as Hji.
      * subst j. assert (q = p) as -> by congruence.
        by rewrite lookup_insert_eq.
      * rewrite lookup_insert_ne; [done |]. intros ->. apply Hji.
        eapply (wf_owned _ _ _ Hwf); eauto.
  - exists s. do 5 (split; [done |]). intros j q Hj.
    case_decide; [| done]. subst j. congruence.
Qed.

Lemma clear_from_spec n : ∀ i s,
  wf s → (i + n ≤ Z.to_nat MAX_BITMAPS)%nat →
  ∃ s', clear_from i n s = Some s' ∧ wf s'
        ∧ _bitmap s' = _bitmap s ∧ _enabled s' = _enabled s
        ∧ dom (heap s') = dom (heap s)
        ∧ ∀ j p, _bitmap s !! j = Some (Some p) →
                 heap s' !! p = if decide (i ≤ j < i + n)%nat
                                then Some (replicate WORDS 0)
                                else heap s !! p.
Proof.
  induction n as [| n IH]; intros i s Hwf Hle; simpl.
  { exists s. do 5 (split; [done |]). intros j p _.
    rewrite decide_False; [done | lia]. }
  destruct (clear_slot_spec s i Hwf ltac:(lia))
    as (s1 & -> & Hwf1 & Hbm1 & Hen1 & Hdom1 & Hheap1). simpl.
  destruct (IH (S i) s1 Hwf1 ltac:(lia))
    as (s' & -> & Hwf' & Hbm' & Hen' & Hdom' & Hheap').
  exists s'. split; [done |]. split; [done |].
  do 3 (split; [congruence |]). intros j p Hj.
  rewrite (Hheap' j p) by congruence. rewrite (Hheap1 j p Hj).
  repeat case_decide; (done || lia).
Qed.

Lemma clear_spec s :
  wf s →
  ∃ s', clear s = Some s' ∧ wf s'
        ∧ _bitmap s' = _bitmap s ∧ _enabled s' = _enabled s
        ∧ dom (heap s') = dom (heap s)
        ∧ (∀ j p, _bitmap s !! j = Some (Some p) →
                  heap s' !! p = Some (replicate WORDS 0))
        ∧ ∀ t, in_range t → accept t s' = Some false.
Proof.
  intros Hwf. unfold ThreadFilter.clear.
  destruct (clear_from_spec (Z.to_nat MAX_BITMAPS) 0 s Hwf ltac:(lia))
    as (s' & Hcl & Hwf' & Hbm & Hen & Hdom & Hheap).
  assert (∀ j p, _bitmap s !! j = Some (Some p) →
                 heap s' !! p = Some (replicate WORDS 0)) as Hzero.
  { intros j p Hj. rewrite (Hheap j p Hj). rewrite decide_True; [done |].
    apply lookup_lt_Some in Hj. rewrite (wf_length _ _ _ Hwf) in Hj. lia. }
  exists s'. do 5 (split; [done |]). split; [done |].
  intros t Ht. destruct (bitmap_is_Some s' t Hwf' Ht) as [[p |] Hb].
  - erewrite accept_chunk; [| done | | ].
    + by rewrite Z.bits_0.
    + eapply Hzero. unfold ThreadFilter.bitmap in Hb. rewrite <- Hbm. done.
    + apply lookup_replicate_2, word_index_lt.
  - by apply accept_null.
Qed.

(** *** Histories *)

Lemma init_wf s f : wf s → wf (init f s).
Proof. intros [? ? ?]. by split. Qed.

Lemma exec_wf o s s' : wf s → exec o s = Some s' → wf s'.
Proof.
  intros Hwf He. destruct o as [f | | t | t]; simpl in He.
  - simplify_eq. by apply init_wf.
  - destruct (clear_spec s Hwf) as (s1 & Hc & Hwf1 & _). congruence.
  - by destruct (add_sound s t s' Hwf He).
  - by destruct (remove_sound s t s' Hwf He).
Qed.

Lemma run_wf ops : ∀ s s', wf s → run ops s = Some s' → wf s'.
Proof.
  induction ops as [| o ops IH]; intros s s' Hwf Hr; simpl in Hr.
  { by simplify_eq. }
  destruct (exec o s) as [s1 |] eqn:He; simpl in Hr; [| done].
  eapply IH; [| done]. by eapply exec_wf.
Qed.

Lemma reachable_wf s : reachable s → wf s.
Proof. intros [ops Hr]. eapply run_wf; [apply wf_new | done]. Qed.

Lemma accept_new t : in_range t → accept t new = Some false.
Proof.
  intros Ht. apply accept_null. unfold ThreadFilter.bitmap. simpl.
  apply lookup_replicate_2. by apply chunk_index_lt.
Qed.

(** A history of calls on addressable identifiers runs to the end, and
    [accept] then answers membership in the set the calls describe. *)
Lemma run_members ops : ∀ s acc,
  wf s → Forall op_in_range ops →
  (∀ t, in_range t → accept t s = Some (bool_decide (t ∈ acc))) →
  ∃ s', run ops s = Some s' ∧ wf s'
        ∧ ∀ t, in_range t →
               accept t s' = Some (bool_decide (t ∈ members ops acc)).
Proof.
  induction ops as [| o ops IH]; intros s acc Hwf Hops Hacc; simpl.
  { by exists s. }
  apply Forall_cons in Hops as [Ho Hops].
  destruct o as [f | | t | t]; simpl.
  - apply IH; [by apply init_wf | done | done].
  - destruct (clear_spec s Hwf) as (s1 & -> & Hwf1 & _ & _ & _ & _ & Hz).
    simpl. apply IH; [done | done |]. intros t Ht.
    rewrite (Hz t Ht), bool_decide_false; [done | set_solver].
  - destruct (add_is_Some s t Hwf Ho) as [s1 Ha]. rewrite Ha. simpl.
    destruct (add_sound s t s1 Hwf Ha) as (Hwf1 & _ & _ & Hs).
    apply IH; [done | done |]. intros t' Ht'. rewrite (Hs t' Ho Ht').
    case_decide as Heq.
    + subst. rewrite bool_decide_true; [done | set_solver].
    + rewrite (Hacc t' Ht'). f_equal. apply bool_decide_ext. set_solver.
  - destruct (remove_is_Some s t Hwf Ho) as [s1 Hr]. rewrite Hr. simpl.
    destruct (remove_sound s t s1 Hwf Hr) as (Hwf1 & _ & _ & _ & Hs).
    apply IH; [done | done |]. intros t' Ht'. rewrite (Hs t' Ho Ht').
    case_decide as Heq.
    + subst. rewrite bool_decide_false; [done | set_solver].
    + rewrite (Hacc t' Ht'). f_equal. apply bool_decide_ext. set_solver.
Qed.




(** ** ThreadFilter: the claims *)


(** C2. [clear] returns on every reachable state; afterwards every chunk
    that was allocated holds zeros only and [accept] is false on the whole
    addressable range, while [_enabled], the chunk pointers and the set of
    heap blocks are what they were; an [add] into a range whose chunk was
    allocated then writes into that chunk and allocates nothing. *)
Theorem filter_clear_keeps_chunks (s : State) :
  reachable s →
  ∃ s', clear s = Some s'
        ∧ _enabled s' = _enabled s
        ∧ _bitmap s' = _bitmap s
        ∧ dom (heap s') = dom (heap s)
        ∧ (∀ i p, _bitmap s !! i = Some (Some p) →
                  heap s' !! p = Some (replicate WORDS 0))
        ∧ (∀ t, in_range t → accept t s' = Some false)
        ∧ ∀ t p, in_range t → bitmap t s = Some (Some p) →
                 ∃ s'', add t s' = Some s''
                        ∧ _bitmap s'' = _bitmap s
                        ∧ dom (heap s'') = dom (heap s)
                        ∧ accept t s'' = Some true.
Proof.
  intros Hwf%reachable_wf.
  destruct (clear_spec s Hwf) as (s' & Hc & Hwf' & Hbm & Hen & Hdom & Hz & Ha).
  exists s'. do 6 (split; [done |]). intros t p Ht Hb.
  destruct (add_is_Some s' t Hwf' Ht) as [s'' Hadd].
  exists s''. split; [done |].
  destruct (add_sound s' t s'' Hwf' Hadd) as (_ & _ & _ & Hs).
  assert (bitmap t s' = Some (Some p)) as Hb'.
  { unfold ThreadFilter.bitmap in *. by rewrite Hbm. }
  pose proof Hadd as Hadd'. unfold ThreadFilter.add in Hadd'.
  rewrite (chunk_for_present s' t p Hb') in Hadd'. simpl in Hadd'.
  destruct (load_word p t s') as [w |]; simpl in Hadd'; [| done].
  destruct (store_word_frame _ _ _ _ _ Hadd') as (Hbm2 & _ & Hdom2).
  split; [congruence |]. split; [congruence |].
  rewrite (Hs t Ht Ht). by rewrite decide_True.
Qed.


(** ** ThreadFilter: beyond the claims *)

Local Abbreviation destroy := (destroy MAX_BITMAPS).
Local Abbreviation add_under := (add_under BITMAP_SIZE).
Local Abbreviation exec_under := (exec_under BITMAP_SIZE MAX_BITMAPS).
Local Abbreviation run_under := (run_under BITMAP_SIZE MAX_BITMAPS).

Lemma u32_bits x :
  0 <= x < 2 ^ 32 ↔ 0 <= x ∧ ∀ i, 32 <= i → Z.testbit x i = false.
Proof.
  split.
  - intros Hx. split; [lia |]. intros i Hi.
    rewrite <- (Z.mod_small x (2 ^ 32)) by lia.
    apply Z.mod_pow2_bits_high. lia.
  - intros [H0 Hhigh]. split; [done |].
    assert (x mod 2 ^ 32 = x) as <-.
    { apply Z.bits_inj'. intros i Hi. destruct (decide (i < 32)).
      - apply Z.mod_pow2_bits_low. lia.
      - rewrite Z.mod_pow2_bits_high by lia. symmetry. apply Hhigh. lia. }
    apply Z.mod_pos_bound. lia.
Qed.

Lemma or_mask_u32 w t :
  0 <= w < 2 ^ 32 → 0 <= Z.lor w (bit_mask t) < 2 ^ 32.
Proof.
  intros Hw. pose proof (pow2_bit_index t) as Hm.
  pose proof (bit_index_bounds t) as Hk.
  apply u32_bits. split.
  - apply Z.lor_nonneg. rewrite bit_mask_pow2. lia.
  - intros i Hi. rewrite testbit_or_mask by lia.
    apply u32_bits in Hw as [_ Hw]. rewrite Hw by done.
    rewrite bool_decide_false by lia. done.
Qed.

Lemma and_mask_inv_u32 w t :
  0 <= w < 2 ^ 32 → 0 <= Z.land w (bit_mask_inv t) < 2 ^ 32.
Proof.
  intros Hw. apply u32_bits. split.
  - apply Z.land_nonneg. left. lia.
  - intros i Hi. rewrite Z.land_spec.
    apply u32_bits in Hw as [_ Hw]. by rewrite Hw.
Qed.

(** A set bit makes the OR of [add] change nothing; a clear bit of a [u32]
    makes the AND of [remove] change nothing. *)
Lemma or_mask_set w t :
  Z.testbit w (Z.land t 31) = true → Z.lor w (bit_mask t) = w.
Proof.
  intros Hb. apply Z.bits_inj'. intros i Hi. rewrite testbit_or_mask by done.
  case_bool_decide as Heq; [| by rewrite orb_false_r].
  subst i. by rewrite Hb.
Qed.

Lemma and_mask_inv_clear w t :
  0 <= w < 2 ^ 32 → Z.testbit w (Z.land t 31) = false →
  Z.land w (bit_mask_inv t) = w.
Proof.
  intros Hw Hb. apply Z.bits_inj'. intros i Hi.
  destruct (decide (i < 32)) as [Hlt | Hge].
  - rewrite testbit_and_mask_inv by lia.
    case_bool_decide as Heq; [| by rewrite andb_true_r].
    subst i. by rewrite Hb.
  - rewrite Z.land_spec. apply u32_bits in Hw as [_ Hw].
    by rewrite Hw by lia.
Qed.

Lemma or_then_and_mask w t :
  0 <= w < 2 ^ 32 → Z.testbit w (Z.land t 31) = false →
  Z.land (Z.lor w (bit_mask t)) (bit_mask_inv t) = w.
Proof.
  intros Hw Hb. apply Z.bits_inj'. intros i Hi.
  destruct (decide (i < 32)) as [Hlt | Hge].
  - rewrite testbit_and_mask_inv, testbit_or_mask by lia.
    case_bool_decide as Heq.
    + subst i. by rewrite Hb.
    + by rewrite orb_false_r, andb_true_r.
  - rewrite Z.land_spec, testbit_or_mask by lia.
    pose proof (bit_index_bounds t).
    apply u32_bits in Hw as [_ Hw]. rewrite Hw by lia.
    by rewrite bool_decide_false by lia.
Qed.

(** Two more invariants: the heap holds the chunks of the table only, and
    its words are [u32]s. *)
Lemma accounted_new : accounted new ∧ words_u32 new.
Proof.
  split.
  - intros p. simpl. rewrite lookup_empty. split; [by intros [? ?] |].
    intros [i [? _]%lookup_replicate]. done.
  - intros p ws. simpl. by rewrite lookup_empty.
Qed.

Lemma accounted_same s s' :
  _bitmap s' = _bitmap s → dom (heap s') = dom (heap s) →
  accounted s → accounted s'.
Proof.
  intros Hbm Hdom Hacc p. rewrite Hbm, <- (Hacc p), <- !elem_of_dom.
  by rewrite Hdom.
Qed.

Lemma store_word_u32 s p t v s' :
  words_u32 s → 0 <= v < 2 ^ 32 → store_word p t v s = Some s' →
  words_u32 s'.
Proof.
  intros Hu Hv Hst. unfold ThreadFilter.store_word in Hst.
  destruct (heap s !! p) as [ws |] eqn:Hp; simpl in Hst; [| done].
  case_decide; simplify_eq. intros q wq. simpl.
  destruct (decide (q = p)) as [-> | Hne].
  - rewrite lookup_insert_eq. intros [= <-].
    apply Forall_insert; [by eapply Hu | done].
  - rewrite lookup_insert_ne by done. apply Hu.
Qed.

Lemma load_word_u32 s p t w :
  words_u32 s → load_word p t s = Some w → 0 <= w < 2 ^ 32.
Proof.
  intros Hu Hl. unfold ThreadFilter.load_word in Hl.
  destruct (heap s !! p) as [ws |] eqn:Hp; simpl in Hl; [| done].
  by eapply (Forall_lookup_1 _ _ _ _ (Hu p ws Hp)).
Qed.

Lemma chunk_for_more s t p s1 :
  accounted s → words_u32 s → chunk_for t s = Some (p, s1) →
  accounted s1 ∧ words_u32 s1.
Proof.
  intros Hacc Hu Hcf. unfold ThreadFilter.chunk_for in Hcf.
  destruct (bitmap t s) as [[q |] |] eqn:Hb; simpl in Hcf; [| | done].
  { by simplify_eq. }
  unfold ThreadFilter.set_bitmap in Hcf. simpl in Hcf.
  case_decide as Hlt; simpl in Hcf; simplify_eq.
  set (p := fresh (dom (heap s))).
  assert (heap s !! p = None) as Hfresh.
  { apply not_elem_of_dom. apply is_fresh. }
  unfold ThreadFilter.bitmap in Hb. split.
  - intros q. simpl. rewrite lookup_insert_is_Some. split.
    + intros [<- | [Hne Hq]].
      * exists (chunk_index t). by rewrite list_lookup_insert_eq.
      * apply Hacc in Hq as [i Hi]. exists i.
        rewrite list_lookup_insert_ne; [done |]. intros <-. congruence.
    + intros [i Hi]. destruct (decide (i = chunk_index t)) as [-> | Hne].
      * rewrite list_lookup_insert_eq in Hi by done. left. congruence.
      * rewrite list_lookup_insert_ne in Hi by done. right.
        assert (is_Some (heap s !! q)) as Hq by (apply Hacc; eauto).
        split; [| done]. intros <-. rewrite Hfresh in Hq. by destruct Hq.
  - intros q wq. simpl. destruct (decide (q = p)) as [-> | Hne].
    + rewrite lookup_insert_eq. intros [= <-].
      apply Forall_replicate. lia.
    + rewrite lookup_insert_ne by done. apply Hu.
Qed.

Lemma clear_from_more n : ∀ i s s',
  accounted s → words_u32 s → clear_from i n s = Some s' →
  accounted s' ∧ words_u32 s'.
Proof.
  induction n as [| n IH]; intros i s s' Hacc Hu Hcl; simpl in Hcl.
  { by simplify_eq. }
  destruct (clear_slot i s) as [s1 |] eqn:Hs1; simpl in Hcl; [| done].
  apply (IH (S i) s1 s'); [| | done].
  - unfold ThreadFilter.clear_slot in Hs1.
    destruct (_bitmap s !! i) as [[p |] |]; simpl in Hs1; simplify_eq;
      [| done].
    unfold ThreadFilter.memset0 in Hs1.
    destruct (heap s !! p) as [ws |] eqn:Hp; simpl in Hs1; [| done].
    case_decide; simplify_eq.
    apply (accounted_same s); [done | | done]. simpl.
    apply dom_insert_lookup_L. eauto.
  - unfold ThreadFilter.clear_slot in Hs1.
    destruct (_bitmap s !! i) as [[p |] |]; simpl in Hs1; simplify_eq;
      [| done].
    unfold ThreadFilter.memset0 in Hs1.
    destruct (heap s !! p) as [ws |] eqn:Hp; simpl in Hs1; [| done].
    case_decide; simplify_eq. intros q wq. simpl.
    destruct (decide (q = p)) as [-> | Hne].
    + rewrite lookup_insert_eq. intros [= <-]. apply Forall_app. split.
      * apply Forall_replicate. lia.
      * apply Forall_drop. by eapply Hu.
    + rewrite lookup_insert_ne by done. apply Hu.
Qed.

Lemma exec_more o s s' :
  accounted s → words_u32 s → exec o s = Some s' →
  accounted s' ∧ words_u32 s'.
Proof.
  intros Hacc Hu He. destruct o as [f | | t | t]; simpl in He.
  - by simplify_eq.
  - by eapply clear_from_more.
  - unfold ThreadFilter.add in He.
    destruct (chunk_for t s) as [[p s1] |] eqn:Hcf; simpl in He; [| done].
    destruct (chunk_for_more _ _ _ _ Hacc Hu Hcf) as [Hacc1 Hu1].
    destruct (load_word p t s1) as [w |] eqn:Hw; simpl in He; [| done].
    destruct (store_word_frame _ _ _ _ _ He) as (Hbm & _ & Hdom). split.
    + by apply (accounted_same s1).
    + eapply store_word_u32; [done | | done].
      apply or_mask_u32. by eapply load_word_u32.
  - unfold ThreadFilter.remove in He.
    destruct (bitmap t s) as [[p |] |]; simpl in He; simplify_eq; [| done].
    destruct (load_word p t s) as [w |] eqn:Hw; simpl in He; [| done].
    destruct (store_word_frame _ _ _ _ _ He) as (Hbm & _ & Hdom). split.
    + by apply (accounted_same s).
    + eapply store_word_u32; [done | | done].
      apply and_mask_inv_u32. by eapply load_word_u32.
Qed.

Lemma run_more ops : ∀ s s',
  accounted s → words_u32 s → run ops s = Some s' →
  accounted s' ∧ words_u32 s'.
Proof.
  induction ops as [| o ops IH]; intros s s' Hacc Hu Hr; simpl in Hr.
  { by simplify_eq. }
  destruct (exec o s) as [s1 |] eqn:He; simpl in Hr; [| done].
  destruct (exec_more _ _ _ Hacc Hu He). by eapply IH.
Qed.

Lemma reachable_more s : reachable s → accounted s ∧ words_u32 s.
Proof.
  intros [ops Hr]. destruct accounted_new. by eapply run_more.
Qed.

Lemma add_slot_stays s t s' i p :
  add t s = Some s' → _bitmap s !! i = Some (Some p) →
  _bitmap s' !! i = Some (Some p).
Proof.
  intros Hadd Hi. unfold ThreadFilter.add in Hadd.
  destruct (chunk_for t s) as [[q s1] |] eqn:Hcf; simpl in Hadd; [| done].
  destruct (load_word q t s1) as [w |]; simpl in Hadd; [| done].
  destruct (store_word_frame _ _ _ _ _ Hadd) as (-> & _ & _).
  unfold ThreadFilter.chunk_for in Hcf.
  destruct (bitmap t s) as [[q' |] |] eqn:Hb; simpl in Hcf; [| | done].
  { by simplify_eq. }
  unfold ThreadFilter.set_bitmap in Hcf. simpl in Hcf.
  case_decide; simpl in Hcf; simplify_eq. simpl.
  rewrite list_lookup_insert_ne; [done |]. intros <-.
  unfold ThreadFilter.bitmap in Hb. congruence.
Qed.

Lemma exec_slot_stays o s s' i p :
  wf s → exec o s = Some s' → _bitmap s !! i = Some (Some p) →
  _bitmap s' !! i = Some (Some p).
Proof.
  intros Hwf He Hi. destruct o as [f | | t | t]; simpl in He.
  - by simplify_eq.
  - destruct (clear_spec s Hwf) as (s1 & Hc & _ & Hbm & _).
    rewrite He in Hc. simplify_eq. by rewrite Hbm.
  - by eapply add_slot_stays.
  - destruct (remove_sound s t s' Hwf He) as (_ & _ & Hbm & _).
    by rewrite Hbm.
Qed.

Lemma run_slot_stays ops : ∀ s s' i p,
  wf s → run ops s = Some s' → _bitmap s !! i = Some (Some p) →
  _bitmap s' !! i = Some (Some p).
Proof.
  induction ops as [| o ops IH]; intros s s' i p Hwf Hr Hi; simpl in Hr.
  { by simplify_eq. }
  destruct (exec o s) as [s1 |] eqn:He; simpl in Hr; [| done].
  eapply IH; [by eapply exec_wf | done | by eapply exec_slot_stays].
Qed.

(** A set of pointers that all sit in a table has no more elements than
    the table has slots. *)
Lemma pointers_bound (l : list (option loc)) : ∀ X : gset loc,
  (∀ p, p ∈ X → ∃ i, l !! i = Some (Some p)) → (size X ≤ length l)%nat.
Proof.
  induction l as [| b l IH]; intros X HX.
  - destruct (set_choose_or_empty X) as [[p Hp] | ->%leibniz_equiv].
    + by destruct (HX p Hp) as [i ?].
    + by rewrite size_empty.
  - set (Y := match b with Some p => ({[p]} : gset loc) | None => ∅ end).
    assert (size (X ∖ Y) ≤ length l)%nat as Hrec.
    { apply IH. intros p [Hp Hn]%elem_of_difference.
      destruct (HX p Hp) as [[| i] Hi]; [| by exists i].
      simpl in Hi. simplify_eq. destruct Hn. subst Y. set_solver. }
    assert (size Y ≤ 1)%nat as HY.
    { subst Y. destruct b; [by rewrite size_singleton | rewrite size_empty; lia]. }
    assert (X ⊆ Y ∪ X ∖ Y) as Hsub.
    { intros p Hp. destruct (decide (p ∈ Y)); set_solver. }
    apply subseteq_size in Hsub.
    rewrite size_union in Hsub by set_solver. simpl. lia.
Qed.

Lemma destroy_from_spec n : ∀ i s,
  (∀ j k p, _bitmap s !! j = Some (Some p) →
            _bitmap s !! k = Some (Some p) → j = k) →
  length (_bitmap s) = (i + n)%nat →
  (∀ p, is_Some (heap s !! p)
        ↔ ∃ j, (i ≤ j)%nat ∧ _bitmap s !! j = Some (Some p)) →
  ∃ s', destroy_from i n s = Some s' ∧ heap s' = ∅
        ∧ _bitmap s' = _bitmap s ∧ _enabled s' = _enabled s.
Proof.
  induction n as [| n IH]; intros i s Hown Hlen Hlive; simpl.
  - exists s. split; [done |]. split; [| done]. apply map_empty. intros p.
    apply eq_None_not_Some. rewrite Hlive. intros (j & Hj & Hl).
    apply lookup_lt_Some in Hl. lia.
  - destruct (lookup_lt_is_Some_2 (_bitmap s) i ltac:(lia)) as [b Hb].
    rewrite Hb. simpl. destruct b as [p |]; simpl.
    + assert (is_Some (heap s !! p)) as Hp by (apply Hlive; eauto).
      rewrite decide_True by done. simpl.
      destruct (IH (S i) (with_heap (delete p (heap s)) s))
        as (s' & Hd & He & Hbm & Hen); simpl; [done | lia | |].
      * intros q. rewrite lookup_delete_is_Some, Hlive. split.
        -- intros (Hne & j & Hj & Hl). exists j. split; [| done].
           destruct (decide (j = i)) as [-> | ?]; [congruence | lia].
        -- intros (j & Hj & Hl). split; [| exists j; split; [lia | done]].
           intros <-. pose proof (Hown _ _ _ Hb Hl). lia.
      * exists s'. by rewrite Hd.
    + destruct (IH (S i) s) as (s' & Hd & He & Hbm & Hen); [done | lia | |].
      * intros q. rewrite Hlive. split.
        -- intros (j & Hj & Hl). exists j. split; [| done].
           destruct (decide (j = i)) as [-> | ?]; [congruence | lia].
        -- intros (j & Hj & Hl). exists j. split; [lia | done].
      * exists s'. by rewrite Hd.
Qed.

(** What [accept] read when it answered. *)
Lemma accept_inv s t b :
  accept t s = Some b →
  (bitmap t s = Some None ∧ b = false)
  ∨ ∃ p ws w, bitmap t s = Some (Some p) ∧ heap s !! p = Some ws
              ∧ ws !! word_index t = Some w
              ∧ b = Z.testbit w (Z.land t 31).
Proof.
  unfold ThreadFilter.accept, ThreadFilter.load_word.
  destruct (bitmap t s) as [[p |] |]; simpl;
    [| intros [= <-]; by left | done].
  destruct (heap s !! p) as [ws |] eqn:Hp; simpl; [| done].
  destruct (ws !! word_index t) as [w |] eqn:Hw; simpl; [| done].
  rewrite mask_test. intros [= <-]. right. exists p, ws, w. by repeat split.
Qed.

(** Writing back the word that is there changes nothing. *)
Lemma store_word_same s t p ws w :
  heap s !! p = Some ws → ws !! word_index t = Some w →
  store_word p t w s = Some s.
Proof.
  intros Hp Hw. unfold ThreadFilter.store_word. rewrite Hp. simpl.
  rewrite decide_True by (by eapply lookup_lt_Some).
  rewrite list_insert_id by done. rewrite insert_id by done. by destruct s.
Qed.

(** [add_under] against [add]: the same when [calloc] returns a block or is
    not called, undefined when it is called and returns [NULL]. *)
Lemma add_under_granted t s : add_under true t s = add t s.
Proof.
  unfold ThreadFilter.add_under, ThreadFilter.add,
    ThreadFilter.chunk_for_or_null, ThreadFilter.chunk_for,
    ThreadFilter.calloc_or_null, ThreadFilter.calloc.
  destruct (bitmap t s) as [[p |] |]; simpl; [done | | done].
  by destruct (set_bitmap t _ _).
Qed.

Lemma add_under_present granted t s p :
  bitmap t s = Some (Some p) → add_under granted t s = add t s.
Proof.
  intros Hb.
  unfold ThreadFilter.add_under, ThreadFilter.add,
    ThreadFilter.chunk_for_or_null, ThreadFilter.chunk_for.
  by rewrite Hb.
Qed.

Lemma add_under_refused t s :
  bitmap t s = Some None → add_under false t s = None.
Proof.
  intros Hb.
  unfold ThreadFilter.add_under, ThreadFilter.chunk_for_or_null,
    ThreadFilter.calloc_or_null.
  rewrite Hb. simpl. by destruct (set_bitmap t None s).
Qed.

Lemma add_under_eq granted t s :
  (bitmap t s = Some None → granted = true) →
  add_under granted t s = add t s.
Proof.
  intros Hg. destruct granted; [apply add_under_granted |].
  destruct (bitmap t s) as [[p |] |] eqn:Hb.
  - by eapply add_under_present.
  - by specialize (Hg eq_refl).
  - unfold ThreadFilter.add_under, ThreadFilter.add,
      ThreadFilter.chunk_for_or_null, ThreadFilter.chunk_for.
    by rewrite Hb.
Qed.

Lemma add_under_Some granted t s s1 :
  add_under granted t s = Some s1 →
  add t s = Some s1 ∧ (bitmap t s = Some None → granted = true).
Proof.
  intros Ha. destruct granted.
  { by rewrite add_under_granted in Ha. }
  destruct (bitmap t s) as [[p |] |] eqn:Hb.
  - by rewrite (add_under_present _ _ _ p Hb) in Ha.
  - by rewrite add_under_refused in Ha.
  - unfold ThreadFilter.add_under, ThreadFilter.chunk_for_or_null in Ha.
    by rewrite Hb in Ha.
Qed.






(** X2. A chunk, once allocated, stays where it is: whatever is called
    afterwards, the slot keeps the same pointer and the block stays on the
    heap. *)
Theorem filter_chunks_stay (s s' : State) (ops : list Op) (i : nat) (p : loc) :
  reachable s → run ops s = Some s' →
  _bitmap s !! i = Some (Some p) →
  _bitmap s' !! i = Some (Some p) ∧ is_Some (heap s' !! p).
Proof.
  intros Hwf%reachable_wf Hrun Hi.
  pose proof (run_slot_stays ops s s' i p Hwf Hrun Hi) as Hi'.
  split; [done |].
  destruct (wf_block _ _ _ (run_wf ops s s' Hwf Hrun) i p Hi') as (ws & -> & _).
  eauto.
Qed.

(** X3. The heap of a reachable filter holds exactly the chunks its table
    points to, at most [MAX_BITMAPS] of them, each of [BITMAP_SIZE / 4]
    words that are [u32]s. *)
Theorem filter_heap_accounted (s : State) :
  reachable s →
  (∀ p, is_Some (heap s !! p) ↔ ∃ i, _bitmap s !! i = Some (Some p))
  ∧ (size (heap s) ≤ Z.to_nat MAX_BITMAPS)%nat
  ∧ ∀ p ws, heap s !! p = Some ws →
            length ws = WORDS ∧ Forall (λ w, 0 <= w < 2 ^ 32) ws.
Proof.
  intros Hr. pose proof (reachable_wf s Hr) as Hwf.
  destruct (reachable_more s Hr) as [Hacc Hu].
  split; [exact Hacc |]. split.
  - rewrite <- (wf_length _ _ _ Hwf), <- size_dom.
    apply pointers_bound. intros p Hp%elem_of_dom. by apply Hacc.
  - intros p ws Hp. split; [| by eapply Hu].
    destruct (proj1 (Hacc p) (mk_is_Some _ _ Hp)) as [i Hi].
    destruct (wf_block _ _ _ Hwf i p Hi) as (ws' & Hp' & Hlen). congruence.
Qed.

(** X4. The destructor of a reachable filter frees every chunk once and
    leaves no block behind. *)
Theorem filter_destroy_frees_all (s : State) :
  reachable s → ∃ s', destroy s = Some s' ∧ heap s' = ∅.
Proof.
  intros Hr. pose proof (reachable_wf s Hr) as Hwf.
  destruct (reachable_more s Hr) as [Hacc _].
  destruct (destroy_from_spec (Z.to_nat MAX_BITMAPS) 0 s)
    as (s' & Hd & He & _).
  - apply (wf_owned _ _ _ Hwf).
  - by rewrite (wf_length _ _ _ Hwf).
  - intros p. rewrite (Hacc p). split.
    + intros [j Hj]. exists j. split; [lia | done].
    + intros (j & _ & Hj). by exists j.
  - by exists s'.
Qed.

(** X5. [remove] allocates nothing and moves no chunk, and a second
    [remove] of the same identifier returns the state the first one left. *)
Theorem filter_remove_settles (s s1 : State) (t : Z) :
  remove t s = Some s1 →
  _bitmap s1 = _bitmap s ∧ dom (heap s1) = dom (heap s)
  ∧ remove t s1 = Some s1.
Proof.
  intros Hrm. unfold ThreadFilter.remove in Hrm.
  destruct (bitmap t s) as [[p |] |] eqn:Hb; simpl in Hrm; [| | done].
  - destruct (load_word p t s) as [w |] eqn:Hw; simpl in Hrm; [| done].
    destruct (store_word_frame _ _ _ _ _ Hrm) as (Hbm & _ & Hdom).
    do 2 (split; [done |]).
    unfold ThreadFilter.store_word in Hrm.
    destruct (heap s !! p) as [ws |] eqn:Hp; simpl in Hrm; [| done].
    case_decide as Hlt; simplify_eq.
    unfold ThreadFilter.remove, ThreadFilter.bitmap in *. simpl.
    rewrite Hb. simpl.
    unfold ThreadFilter.load_word, ThreadFilter.store_word. simpl.
    rewrite lookup_insert_eq. simpl.
    rewrite list_lookup_insert_eq by done. simpl.
    rewrite length_insert, decide_True by done.
    rewrite <- Z.land_assoc, Z.land_diag.
    by rewrite list_insert_insert_eq, insert_insert_eq.
  - simplify_eq. do 2 (split; [done |]).
    unfold ThreadFilter.remove. by rewrite Hb.
Qed.

(** X6. On a reachable state, [add] of a member and [remove] of a
    non-member return the state unchanged. *)
Theorem filter_membership_noop (s : State) (t : Z) :
  reachable s →
  (accept t s = Some true → add t s = Some s)
  ∧ (accept t s = Some false → remove t s = Some s).
Proof.
  intros Hr. destruct (reachable_more s Hr) as [_ Hu]. split; intros Hacc.
  - destruct (accept_inv s t true Hacc)
      as [[_ ?] | (p & ws & w & Hb & Hp & Hw & Hbit)]; [done |].
    unfold ThreadFilter.add. rewrite (chunk_for_present s t p Hb). simpl.
    unfold ThreadFilter.load_word. rewrite Hp. simpl. rewrite Hw. simpl.
    rewrite or_mask_set by done. by eapply store_word_same.
  - unfold ThreadFilter.remove.
    destruct (accept_inv s t false Hacc)
      as [[-> _] | (p & ws & w & -> & Hp & Hw & Hbit)]; [done |]. simpl.
    unfold ThreadFilter.load_word. rewrite Hp. simpl. rewrite Hw. simpl.
    rewrite and_mask_inv_clear; [by eapply store_word_same | | done].
    by eapply (Forall_lookup_1 _ _ _ _ (Hu p ws Hp)).
Qed.

(** X7. [add] of a non-member followed by [remove] undoes the membership
    change for every addressable identifier.  It gives back the very state
    when the chunk was already there; otherwise, [calloc] having returned a
    block, what it leaves differs from that state by the new chunk alone,
    published in the slot of the identifier and all zero. *)
Theorem filter_add_remove_round_trip (granted : bool) (s : State) (t : Z) :
  reachable s → in_range t → accept t s = Some false →
  (bitmap t s = Some None → granted = true) →
  ∃ s1 s2, add_under granted t s = Some s1 ∧ remove t s1 = Some s2
           ∧ (∀ t', in_range t' → accept t' s2 = accept t' s)
           ∧ (bitmap t s ≠ Some None → s2 = s)
           ∧ (bitmap t s = Some None →
              ∃ p, heap s !! p = None
                   ∧ s2 = mkState (<[chunk_index t := Some p]> (_bitmap s))
                            (_enabled s)
                            (<[p := replicate WORDS 0]> (heap s))).
Proof.
  intros Hr Ht Hacc Hg. pose proof (reachable_wf s Hr) as Hwf.
  destruct (reachable_more s Hr) as [_ Hu].
  rewrite (add_under_eq granted t s Hg).
  destruct (add_is_Some s t Hwf Ht) as [s1 Ha].
  destruct (add_sound s t s1 Hwf Ha) as (Hwf1 & _ & _ & Hs1).
  destruct (remove_is_Some s1 t Hwf1 Ht) as [s2 Hrm].
  destruct (remove_sound s1 t s2 Hwf1 Hrm) as (_ & _ & _ & _ & Hs2).
  exists s1, s2. do 2 (split; [done |]). split; [| split].
  - intros t' Ht'. rewrite (Hs2 t' Ht Ht'), (Hs1 t' Ht Ht').
    case_decide; [by subst | done].
  - intros Hchunk.
    destruct (accept_inv s t false Hacc)
      as [[? _] | (p & ws & w & Hb & Hp & Hw & Hbit)]; [done |].
    pose proof (lookup_lt_Some _ _ _ Hw) as Hlt.
    unfold ThreadFilter.add in Ha.
    rewrite (chunk_for_present s t p Hb) in Ha. simpl in Ha.
    unfold ThreadFilter.load_word, ThreadFilter.store_word in Ha.
    rewrite Hp in Ha. simpl in Ha. rewrite Hw in Ha. simpl in Ha.
    rewrite decide_True in Ha by done. simplify_eq.
    unfold ThreadFilter.remove, ThreadFilter.bitmap in *. simpl in Hrm.
    rewrite Hb in Hrm. simpl in Hrm.
    unfold ThreadFilter.load_word, ThreadFilter.store_word in Hrm.
    simpl in Hrm. rewrite lookup_insert_eq in Hrm. simpl in Hrm.
    rewrite list_lookup_insert_eq in Hrm by done. simpl in Hrm.
    rewrite length_insert, decide_True in Hrm by done.
    rewrite or_then_and_mask in Hrm;
      [| by eapply (Forall_lookup_1 _ _ _ _ (Hu p ws Hp)) | done].
    rewrite list_insert_insert_eq, insert_insert_eq in Hrm.
    rewrite list_insert_id, insert_id in Hrm by done.
    simplify_eq. by destruct s.
  - intros Hb. exists (fresh (dom (heap s))).
    assert (heap s !! fresh (dom (heap s)) = None) as Hfresh.
    { apply not_elem_of_dom. apply is_fresh. }
    split; [done |].
    pose proof (chunk_index_lt t Ht) as Hci.
    rewrite <- (wf_length _ _ _ Hwf) in Hci.
    pose proof (word_index_lt t) as Hwi.
    unfold ThreadFilter.add, ThreadFilter.chunk_for in Ha.
    rewrite Hb in Ha. simpl in Ha.
    unfold ThreadFilter.set_bitmap in Ha. simpl in Ha.
    rewrite decide_True in Ha by done. simpl in Ha.
    unfold ThreadFilter.load_word, ThreadFilter.store_word in Ha.
    simpl in Ha. rewrite lookup_insert_eq in Ha. simpl in Ha.
    rewrite lookup_replicate_2 in Ha by done. simpl in Ha.
    rewrite length_replicate, decide_True in Ha by done.
    rewrite insert_insert_eq in Ha. simplify_eq.
    unfold ThreadFilter.remove, ThreadFilter.bitmap in Hrm. simpl in Hrm.
    rewrite list_lookup_insert_eq in Hrm by done. simpl in Hrm.
    unfold ThreadFilter.load_word, ThreadFilter.store_word in Hrm.
    simpl in Hrm. rewrite lookup_insert_eq in Hrm. simpl in Hrm.
    rewrite list_lookup_insert_eq in Hrm by (by rewrite length_replicate).
    simpl in Hrm.
    rewrite length_insert, length_replicate, decide_True in Hrm by done.
    rewrite or_then_and_mask in Hrm; [| lia | apply Z.bits_0].
    rewrite list_insert_insert_eq, insert_insert_eq in Hrm.
    rewrite list_insert_id in Hrm by (by apply lookup_replicate_2).
    by simplify_eq.
Qed.

(** Where the three are defined, [calloc] returning a block. *)
Lemma defined_on_range (s : State) (t : Z) :
  reachable s → is_int t → MAX_BITMAPS * CAP <= 2 ^ 31 →
  (is_Some (accept t s) ↔ in_range t)
  ∧ (is_Some (add t s) ↔ in_range t)
  ∧ (is_Some (remove t s) ↔ in_range t).
Proof.
  intros Hwf%reachable_wf Hint Hcover.
  assert (¬ in_range t → bitmap t s = None) as Hout.
  { intros Hnot. apply lookup_ge_None_2. rewrite (wf_length _ _ _ Hwf).
    unfold ThreadFilter.chunk_index, to_u32.
    pose proof capacity_words. pose proof words_pos.
    assert (MAX_BITMAPS * CAP <= t mod 2 ^ 32) as Hbig.
    { unfold ThreadFilter.in_range in Hnot. unfold is_int in *.
      destruct (decide (0 <= t)).
      - rewrite Z.mod_small by lia. lia.
      - assert (t mod 2 ^ 32 = t + 2 ^ 32) as ->; [| lia].
        symmetry. apply (Z.mod_unique _ _ (-1)); lia. }
    destruct (decide (0 <= MAX_BITMAPS)); [| lia].
    assert (MAX_BITMAPS <= t mod 2 ^ 32 / CAP)
      by (apply Z.div_le_lower_bound; lia).
    lia. }
  split; [| split]; (split; [| intros Ht]).
  - intros Hsome. destruct (decide (in_range t)) as [| Hnot]; [done |].
    unfold ThreadFilter.accept in Hsome. rewrite (Hout Hnot) in Hsome.
    by destruct Hsome.
  - by apply accept_is_Some.
  - intros Hsome. destruct (decide (in_range t)) as [| Hnot]; [done |].
    unfold ThreadFilter.add, ThreadFilter.chunk_for in Hsome.
    rewrite (Hout Hnot) in Hsome. by destruct Hsome.
  - by apply add_is_Some.
  - intros Hsome. destruct (decide (in_range t)) as [| Hnot]; [done |].
    unfold ThreadFilter.remove in Hsome. rewrite (Hout Hnot) in Hsome.
    by destruct Hsome.
  - by apply remove_is_Some.
Qed.

(** X8. With a table that covers no more than the non-negative [int]s,
    [accept] and [remove] are defined on the addressable identifiers and on
    no other [int], outside the range they index past [_bitmap]; and [add]
    is defined on the addressable identifiers whose chunk is there or for
    which [calloc] returns a block, and nowhere else. *)
Theorem filter_defined_on_range (granted : bool) (s : State) (t : Z) :
  reachable s → is_int t → MAX_BITMAPS * CAP <= 2 ^ 31 →
  (is_Some (accept t s) ↔ in_range t)
  ∧ (is_Some (add_under granted t s)
     ↔ in_range t ∧ (bitmap t s = Some None → granted = true))
  ∧ (is_Some (remove t s) ↔ in_range t).
Proof.
  intros Hr Hint Hcover.
  destruct (defined_on_range s t Hr Hint Hcover) as (Hacc & Hadd & Hrm).
  split; [done |]. split; [| done]. split.
  - intros [s1 [Ha Hg]%add_under_Some]. split; [| done]. apply Hadd. eauto.
  - intros [Ht Hg]. rewrite add_under_eq by done. by apply Hadd.
Qed.

(** X19. [clear] twice is [clear] once: on a reachable state the second
    call returns the state the first one left. *)
Theorem filter_clear_idempotent (s : State) :
  reachable s → ∃ s', clear s = Some s' ∧ clear s' = Some s'.
Proof.
  intros Hr. pose proof (reachable_wf s Hr) as Hwf.
  destruct (reachable_more s Hr) as [Hacc _].
  destruct (clear_spec s Hwf) as (s' & Hc & Hwf' & Hbm & Hen & Hdom & Hz & _).
  exists s'. split; [done |].
  assert (accounted s') as Hacc' by (by apply (accounted_same s)).
  destruct (clear_spec s' Hwf')
    as (s'' & Hc' & _ & Hbm' & Hen' & Hdom' & Hz' & _).
  rewrite Hc'. f_equal.
  assert (heap s'' = heap s') as Hheap.
  { apply map_eq. intros p. destruct (heap s' !! p) as [ws |] eqn:Hp.
    - destruct (proj1 (Hacc' p) (mk_is_Some _ _ Hp)) as [i Hi].
      rewrite (Hz' i p Hi). rewrite Hbm in Hi. rewrite (Hz i p Hi) in Hp.
      done.
    - apply not_elem_of_dom. rewrite Hdom'. by apply not_elem_of_dom. }
  destruct s', s''. simpl in *. by subst.
Qed.

(** What [add] allocates, [calloc] returning a block. *)
Lemma add_allocates (s : State) (t : Z) :
  reachable s → in_range t →
  ∃ s1, add t s = Some s1
        ∧ (bitmap t s = Some None →
           size (heap s1) = S (size (heap s))
           ∧ ∃ p, bitmap t s1 = Some (Some p) ∧ heap s !! p = None)
        ∧ (bitmap t s ≠ Some None →
           _bitmap s1 = _bitmap s ∧ dom (heap s1) = dom (heap s)).
Proof.
  intros Hwf%reachable_wf Ht.
  destruct (add_is_Some s t Hwf Ht) as [s1 Ha]. exists s1. split; [done |].
  unfold ThreadFilter.add in Ha.
  destruct (chunk_for t s) as [[p s0] |] eqn:Hcf; simpl in Ha; [| done].
  destruct (load_word p t s0) as [w |]; simpl in Ha; [| done].
  destruct (store_word_frame _ _ _ _ _ Ha) as (Hbm & _ & Hdom).
  destruct (bitmap_is_Some s t Hwf Ht) as [[q |] Hb]; split.
  - intros Hcontra. congruence.
  - intros _. rewrite (chunk_for_present s t q Hb) in Hcf. by simplify_eq.
  - intros _. unfold ThreadFilter.chunk_for in Hcf. rewrite Hb in Hcf.
    simpl in Hcf. unfold ThreadFilter.set_bitmap in Hcf. simpl in Hcf.
    case_decide as Hlt; simpl in Hcf; simplify_eq.
    assert (heap s !! fresh (dom (heap s)) = None) as Hfresh.
    { apply not_elem_of_dom. apply is_fresh. }
    split.
    + rewrite <- (size_dom (heap s1)), Hdom, size_dom. simpl.
      by apply map_size_insert_None.
    + exists (fresh (dom (heap s))). split; [| done].
      unfold ThreadFilter.bitmap. rewrite Hbm. simpl.
      by rewrite list_lookup_insert_eq.
  - intros Hcontra. by destruct Hcontra.
Qed.

(** X20. [add] allocates lazily.  When the slot of the identifier is
    empty it calls [calloc]: given a block, it publishes that one new block
    in the slot; given [NULL], it writes through the null pointer.  When the
    slot is taken it allocates nothing, whatever [calloc] would answer. *)
Theorem filter_add_allocates_lazily (granted : bool) (s : State) (t : Z) :
  reachable s → in_range t →
  (bitmap t s = Some None → granted = true →
   ∃ s1 p, add_under granted t s = Some s1
           ∧ size (heap s1) = S (size (heap s))
           ∧ bitmap t s1 = Some (Some p) ∧ heap s !! p = None)
  ∧ (bitmap t s = Some None → granted = false →
     add_under granted t s = None)
  ∧ (bitmap t s ≠ Some None →
     ∃ s1, add_under granted t s = Some s1
           ∧ _bitmap s1 = _bitmap s ∧ dom (heap s1) = dom (heap s)).
Proof.
  intros Hr Ht.
  destruct (add_allocates s t Hr Ht) as (s1 & Ha & Hnew & Hold).
  split; [| split].
  - intros Hb ->. destruct (Hnew Hb) as (Hsize & p & Hp & Hfresh).
    exists s1, p. by rewrite add_under_granted.
  - intros Hb ->. by apply add_under_refused.
  - intros Hb. exists s1. rewrite add_under_eq by done.
    split; [done |]. by apply Hold.
Qed.

End FilterFacts.

(** ** C strings *)

Lemma uchar_inj c d : uchar c = uchar d → c = d.
Proof.
  unfold uchar. intros Heq%Nat2Z.inj.
  rewrite <- (ascii_nat_embedding c), <- (ascii_nat_embedding d). by rewrite Heq.
Qed.

Lemma uchar_NUL c : uchar c = 0 ↔ c = NUL.
Proof.
  split; [| by intros ->]. intros Hc. apply uchar_inj. by rewrite Hc.
Qed.

(** [strcmp] answers 0 exactly on equal C strings. *)
Lemma strcmp_eq a : ∀ b, strcmp a b = 0 ↔ c_str a = c_str b.
Proof.
  induction a as [| c a IH]; intros [| d b]; simpl.
  - done.
  - case_decide as Hd; [subst d; done |].
    split; [| done]. intros Hu. destruct Hd. apply uchar_NUL. lia.
  - case_decide as Hc; [subst c; done |].
    split; [| done]. intros Hu. destruct Hc. by apply uchar_NUL.
  - destruct (decide (c = d)) as [<- | Hne].
    + destruct (decide (c = NUL)) as [Hc | Hc]; [done |].
      rewrite IH. split; [by intros -> | by intros [=]].
    + split.
      * intros Hu. destruct Hne. apply uchar_inj. lia.
      * repeat case_decide; intros [=]; congruence.
Qed.

(** ** WallClock: one tick *)

Import WallClock.

Section EngineFacts.

Variable DEFAULT_INTERVAL : Z.
Variable EVENT_WALL : string.
Variable BITMAP_SIZE : Z.

Context {W : Type} `{Env W}.

Local Abbreviation start := (start DEFAULT_INTERVAL EVENT_WALL).
Local Abbreviation skipped := (skipped BITMAP_SIZE).
Local Abbreviation for_loop := (for_loop BITMAP_SIZE).
Local Abbreviation while_running := (while_running BITMAP_SIZE).
Local Abbreviation timerLoop := (timerLoop BITMAP_SIZE).
Local Abbreviation respects_filter := (respects_filter BITMAP_SIZE).
Local Abbreviation accept := (ThreadFilter.accept BITMAP_SIZE).

(** The cases of the [for] loop, as an induction principle. *)
Lemma for_loop_cases (c : Locals)
    (P : ThreadList → Z → W → Tick W → Prop) :
  (∀ l count w, ¬ count < THREADS_PER_TICK →
     P l count w (mkTick [] Budget count (Some l) w)) →
  (∀ l count w, count < THREADS_PER_TICK → (next l).1 = -1 →
     P l count w (mkTick [EvNext (-1); EvDelete] Exhausted count None w)) →
  (∀ thread_id rest count w,
     count < THREADS_PER_TICK → thread_id ≠ -1 →
     skipped c thread_id = None →
     P (thread_id :: rest) count w
       (mkTick [EvNext thread_id] Undefined count (Some rest) w)) →
  (∀ thread_id rest count w t,
     count < THREADS_PER_TICK → thread_id ≠ -1 →
     skipped c thread_id = Some true →
     t = for_loop c rest count w → P rest count w t →
     P (thread_id :: rest) count w (emit [EvNext thread_id] t)) →
  (∀ thread_id rest count w evs count' w' t,
     count < THREADS_PER_TICK → thread_id ≠ -1 →
     skipped c thread_id = Some false →
     sample c thread_id count w = (evs, count', w') →
     t = for_loop c rest count' w' → P rest count' w' t →
     P (thread_id :: rest) count w (emit (EvNext thread_id :: evs) t)) →
  ∀ l count w, P l count w (for_loop c l count w).
Proof.
  intros Hbudget Hend Hundef Hskip Hsample.
  induction l as [| thread_id rest IH]; intros count w; simpl.
  - case_decide; [by apply Hend | by apply Hbudget].
  - case_decide as Hc; [| by apply Hbudget].
    case_decide as Hid; [subst; by apply Hend |].
    destruct (skipped c thread_id) as [[|] |] eqn:Hsk.
    + by apply Hskip.
    + destruct (sample c thread_id count w) as [[evs count'] w'] eqn:Hs.
      by eapply Hsample.
    + by apply Hundef.
Qed.

(** What [sample] can do: nothing, or one signal, routed by the state. *)
Lemma sample_cases c thread_id count w evs count' w' :
  sample c thread_id count w = (evs, count', w') →
  (evs = [] ∧ count' = count)
  ∨ ∃ state signo ok,
      evs = [EvSignal thread_id state signo ok]
      ∧ count' = (if ok then count + 1 else count)
      ∧ routed (sample_idle_threads c) (EvSignal thread_id state signo ok).
Proof.
  unfold sample. intros Hs.
  destruct (OS_threadState thread_id w) as [state w1].
  destruct state.
  - left. by simplify_eq.
  - destruct (OS_sendSignalToThread thread_id SIGPROF w1) as [ok w2].
    right. exists THREAD_RUNNING, SIGPROF, ok. simplify_eq.
    split; [done |]. split; [done |]. by left.
  - destruct (sample_idle_threads c) eqn:Hidle.
    + destruct (OS_sendSignalToThread thread_id SIGVTALRM w1) as [ok w2].
      right. exists THREAD_SLEEPING, SIGVTALRM, ok. simplify_eq.
      split; [done |]. split; [done |]. by right.
    + left. by simplify_eq.
Qed.

Lemma skipped_false c thread_id :
  skipped c thread_id = Some false →
  thread_id ≠ self c
  ∧ (thread_filter_enabled c = true →
     accept thread_id (thread_filter c) = Some true).
Proof.
  unfold WallClock.skipped. case_decide as Hself; [done |].
  intros Hsk. split; [done |]. intros Hen. rewrite Hen in Hsk.
  destruct (accept thread_id (thread_filter c)) as [[|] |]; by simplify_eq.
Qed.




Lemma visited_app tr1 tr2 : visited (tr1 ++ tr2) = visited tr1 ++ visited tr2.
Proof. unfold visited. apply omap_app. Qed.


(** Events of a tick: calls of [next], the [delete], and signals that
    passed the checks of line 110 and were routed by lines 115 to 118. *)
Lemma for_loop_Forall (P : Event → Prop) c :
  (∀ thread_id, P (EvNext thread_id)) →
  P EvDelete →
  (∀ thread_id state signo ok,
     thread_id ≠ self c →
     (thread_filter_enabled c = true →
      accept thread_id (thread_filter c) = Some true) →
     routed (sample_idle_threads c) (EvSignal thread_id state signo ok) →
     P (EvSignal thread_id state signo ok)) →
  ∀ l count w, Forall P (tick_trace (for_loop c l count w)).
Proof.
  intros Hnext Hdel Hsig.
  apply (for_loop_cases c (λ _ _ _ t, Forall P (tick_trace t))); simpl.
  - by intros.
  - intros. by repeat constructor.
  - intros. by repeat constructor.
  - intros. by constructor.
  - intros thread_id rest count w evs count' w' t _ _ Hsk Hs _ IH.
    constructor; [done |]. apply Forall_app. split; [| done].
    destruct (skipped_false _ _ Hsk) as [Hself Hacc].
    destruct (sample_cases _ _ _ _ _ _ _ Hs)
      as [[-> _] | (state & signo & ok & -> & _ & Hr)]; [done |].
    constructor; [| done]. by apply Hsig.
Qed.

Lemma for_loop_in_tick c l count w :
  Forall (λ e, in_tick e = true) (tick_trace (for_loop c l count w)).
Proof. by apply for_loop_Forall. Qed.

(** How a tick ends.  On [Budget], [count] has reached the limit and the
    enumerator is kept with everything [next] did not hand out.  On
    [Exhausted], [count] is below the limit, the enumerator is gone, and the
    end sentinel and the [delete] are the last two events and the sentinel
    shows nowhere else. *)
Lemma for_loop_exit c l count w :
  let t := for_loop c l count w in
  match tick_exit t with
  | Budget =>
      ¬ tick_count t < THREADS_PER_TICK
      ∧ tick_list t = Some (drop (length (visited (tick_trace t))) l)
      ∧ visited (tick_trace t) = take (length (visited (tick_trace t))) l
      ∧ Forall (λ e, e ≠ EvNext (-1)) (tick_trace t)
  | Exhausted =>
      tick_count t < THREADS_PER_TICK
      ∧ tick_list t = None
      ∧ ∃ tr, tick_trace t = tr ++ [EvNext (-1); EvDelete]
              ∧ Forall (λ e, e ≠ EvNext (-1)) tr
  | Undefined =>
      Forall (λ e, e ≠ EvNext (-1)) (tick_trace t)
  end.
Proof.
  apply (for_loop_cases c (λ l _ _ t,
    match tick_exit t with
    | Budget =>
        ¬ tick_count t < THREADS_PER_TICK
        ∧ tick_list t = Some (drop (length (visited (tick_trace t))) l)
        ∧ visited (tick_trace t) = take (length (visited (tick_trace t))) l
        ∧ Forall (λ e, e ≠ EvNext (-1)) (tick_trace t)
    | Exhausted =>
        tick_count t < THREADS_PER_TICK
        ∧ tick_list t = None
        ∧ ∃ tr, tick_trace t = tr ++ [EvNext (-1); EvDelete]
                ∧ Forall (λ e, e ≠ EvNext (-1)) tr
    | Undefined => Forall (λ e, e ≠ EvNext (-1)) (tick_trace t)
    end)); clear l count w; simpl.
  - intros l count w Hc. by rewrite take_0.
  - intros l count w Hc _. do 2 (split; [done |]). by exists [].
  - intros thread_id rest count w Hc Hid _. constructor; [| done]. congruence.
  - intros thread_id rest count w t Hc Hid _ _ IH.
    assert (EvNext thread_id ≠ EvNext (-1)) as Hne by congruence.
    destruct (tick_exit t).
    + destruct IH as (? & ? & ? & ?). simpl.
      split; [done |]. split; [done |]. split; [by f_equal | by constructor].
    + destruct IH as (? & ? & tr & -> & ?). do 2 (split; [done |]).
      exists (EvNext thread_id :: tr). split; [done | by constructor].
    + by constructor.
  - intros thread_id rest count w evs count' w' t Hc Hid _ Hs _ IH.
    assert (EvNext thread_id ≠ EvNext (-1)) as Hne by congruence.
    assert (visited evs = [] ∧ Forall (λ e, e ≠ EvNext (-1)) evs)
      as [Hv Hno].
    { destruct (sample_cases _ _ _ _ _ _ _ Hs)
        as [[-> _] | (state & signo & ok & -> & _ & _)]; [done |].
      split; [done |]. by repeat constructor. }
    rewrite visited_app, Hv. simpl.
    destruct (tick_exit t).
    + destruct IH as (? & ? & ? & ?).
      split; [done |]. split; [done |]. split; [by f_equal |].
      constructor; [done |]. by apply Forall_app.
    + destruct IH as (? & ? & tr & -> & ?). do 2 (split; [done |]).
      exists (EvNext thread_id :: evs ++ tr). split.
      * simpl. by rewrite <- app_assoc.
      * constructor; [done |]. by apply Forall_app.
    + constructor; [done |]. by apply Forall_app.
Qed.

(** ** WallClock: the loop *)

(** An event found in [A ++ B] lies in [B] when nothing in [A] is of its
    kind. *)
Lemma split_past (Q : Event → Prop) A : ∀ B pre e post,
  Forall (λ x, ¬ Q x) A → Q e →
  A ++ B = pre ++ e :: post →
  ∃ pre', pre = A ++ pre' ∧ B = pre' ++ e :: post.
Proof.
  induction A as [| a A IH]; intros B pre e post HA He Heq; simpl in *.
  { by exists pre. }
  apply Forall_cons in HA as [Ha HA].
  destruct pre as [| p pre]; simpl in Heq; simplify_eq; [done |].
  destruct (IH B pre e post HA He) as (pre' & -> & ->); [done |].
  by exists pre'.
Qed.

Lemma not_found (Q : Event → Prop) tr pre e post :
  Forall (λ x, ¬ Q x) tr → Q e → tr ≠ pre ++ e :: post.
Proof.
  intros Htr He ->. apply Forall_app in Htr as [_ Htr].
  apply Forall_cons in Htr as [Hne _]. done.
Qed.

Lemma in_tick_not_running tr :
  Forall (λ e, in_tick e = true) tr → Forall (λ e, ¬ is_running e = true) tr.
Proof. intros Htr. eapply Forall_impl; [done |]. by intros []. Qed.

Lemma acquire_cases thread_list w evs l w' :
  acquire thread_list w = (evs, l, w') →
  (thread_list = None ∧ evs = [EvListThreads l])
  ∨ (thread_list = Some l ∧ evs = []).
Proof.
  unfold acquire. destruct thread_list as [l0 |].
  - intros [= <- <- <-]. by right.
  - destruct (OS_listThreads w) as [l0 w0]. intros [= <- <- <-]. by left.
Qed.

Lemma occurrences_nil f : occurrences f [] = O.
Proof. reflexivity. Qed.

Lemma occurrences_cons f e tr :
  occurrences f (e :: tr) = ((if f e then 1 else 0) + occurrences f tr)%nat.
Proof.
  unfold occurrences. rewrite filter_cons. by destruct (f e).
Qed.

Lemma occurrences_app f tr1 tr2 :
  occurrences f (tr1 ++ tr2) = (occurrences f tr1 + occurrences f tr2)%nat.
Proof. unfold occurrences. by rewrite filter_app, length_app. Qed.

Lemma occurrences_none f tr :
  Forall (λ e, f e = false) tr → occurrences f tr = O.
Proof.
  induction 1 as [| e tr He _ IH]; [done |].
  by rewrite occurrences_cons, He, IH.
Qed.

(** Whatever a predicate holds of (looks at [_running], enumerations,
    [delete], the sleep of the configured length, and the events of ticks),
    it holds of every event of the loop. *)
Lemma while_running_Forall (P : Event → Prop) c :
  (∀ b, P (EvRunning b)) →
  (∀ l, P (EvListThreads l)) →
  P EvDelete →
  P (EvSleep (timeout c).1 (timeout c).2) →
  (∀ l count w, Forall P (tick_trace (for_loop c l count w))) →
  ∀ fuel thread_list w, Forall P (while_running fuel c thread_list w).1.
Proof.
  intros Hrun Hlist Hdel Hsleep Htick.
  induction fuel as [| fuel IH]; intros thread_list w; simpl; [done |].
  destruct (load_running w) as [[|] w0]; simpl.
  - destruct (acquire thread_list w0) as [[evs l] w1] eqn:Hacq.
    assert (Forall P evs) as Hevs.
    { destruct (acquire_cases _ _ _ _ _ Hacq) as [[_ ->] | [_ ->]];
        by repeat constructor. }
    specialize (Htick l 0 w1).
    destruct (tick_exit (for_loop c l 0 w1)); simpl.
    + specialize (IH (tick_list (for_loop c l 0 w1))
                     (nanosleep (timeout c).1 (timeout c).2
                                (tick_world (for_loop c l 0 w1)))).
      destruct (while_running fuel c _ _) as [rest stop]. simpl in *.
      constructor; [done |]. apply Forall_app. split; [done |].
      apply Forall_app. split; [done |]. by constructor.
    + specialize (IH (tick_list (for_loop c l 0 w1))
                     (nanosleep (timeout c).1 (timeout c).2
                                (tick_world (for_loop c l 0 w1)))).
      destruct (while_running fuel c _ _) as [rest stop]. simpl in *.
      constructor; [done |]. apply Forall_app. split; [done |].
      apply Forall_app. split; [done |]. by constructor.
    + constructor; [done |]. by apply Forall_app.
  - constructor; [done |]. destruct thread_list; by repeat constructor.
Qed.

Local Abbreviation loop_trace := (loop_trace BITMAP_SIZE).

(** The loop produces such traces only. *)
Lemma while_running_trace c fuel : ∀ thread_list w,
  loop_trace c thread_list (while_running fuel c thread_list w).1
                           (while_running fuel c thread_list w).2.
Proof.
  induction fuel as [| fuel IH]; intros thread_list w; simpl; [constructor |].
  destruct (load_running w) as [[|] w0]; simpl; [| constructor].
  destruct (acquire thread_list w0) as [[evs l] w1] eqn:Hacq.
  destruct (tick_exit (for_loop c l 0 w1)) eqn:Hexit.
  - specialize (IH (tick_list (for_loop c l 0 w1))
                   (nanosleep (timeout c).1 (timeout c).2
                              (tick_world (for_loop c l 0 w1)))).
    destruct (while_running fuel c _ _) as [rest stop]. simpl in *.
    eapply loop_round; [done | congruence | done].
  - specialize (IH (tick_list (for_loop c l 0 w1))
                   (nanosleep (timeout c).1 (timeout c).2
                              (tick_world (for_loop c l 0 w1)))).
    destruct (while_running fuel c _ _) as [rest stop]. simpl in *.
    eapply loop_round; [done | congruence | done].
  - simpl. by eapply loop_crashed.
Qed.

Lemma loop_trace_begins c thread_list tr stop :
  loop_trace c thread_list tr stop → begins thread_list tr.
Proof.
  destruct 1 as [| | ? ? ? ? ? Hacq | ? ? ? ? ? ? ? Hacq]; simpl; try done.
  - intros ->. destruct (acquire_cases _ _ _ _ _ Hacq) as [[_ ->] | [? _]];
      [eauto | done].
  - intros ->. destruct (acquire_cases _ _ _ _ _ Hacq) as [[_ ->] | [? _]];
      [eauto | done].
Qed.

Lemma begins_fresh_round tr : begins None tr → fresh_round tr.
Proof.
  destruct tr as [| [[|] | | | | |] tr]; simpl; try done.
  intros Hb. by destruct (Hb eq_refl) as (ids & tr' & ->).
Qed.

Lemma acquire_events thread_list w evs l w' (Q : Event → Prop) :
  acquire thread_list w = (evs, l, w') →
  (∀ ids, ¬ Q (EvListThreads ids)) → Forall (λ x, ¬ Q x) evs.
Proof.
  intros Hacq HQ.
  destruct (acquire_cases _ _ _ _ _ Hacq) as [[_ ->] | [_ ->]];
    by repeat constructor.
Qed.

(** After the end sentinel: the [delete], the sleep, and then a round that
    lists the threads anew, if there is one. *)
Lemma loop_trace_sentinel c thread_list tr stop :
  loop_trace c thread_list tr stop →
  ∀ pre post, tr = pre ++ EvNext (-1) :: post →
  ∃ post', post = EvDelete :: EvSleep (timeout c).1 (timeout c).2 :: post'
           ∧ fresh_round post'.
Proof.
  set (Q := λ x : Event, x = EvNext (-1)).
  induction 1 as [tl | tl | tl w evs l w' Hacq Hexit
                 | tl w evs l w' rest stop Hacq Hexit Hrest IH];
    intros pre post Heq.
  - by destruct pre.
  - exfalso. eapply (not_found Q); [| | exact Heq]; [| done].
    constructor; [done |]. destruct tl; by repeat constructor.
  - exfalso. eapply (not_found Q); [| | exact Heq]; [| done].
    constructor; [done |]. apply Forall_app. split.
    + by eapply (acquire_events _ _ _ _ _ Q).
    + pose proof (for_loop_exit c l 0 w') as Hx. simpl in Hx.
      by rewrite Hexit in Hx.
  - pose proof (for_loop_exit c l 0 w') as Hx. simpl in Hx.
    pose proof (acquire_events _ _ _ _ _ Q Hacq ltac:(done)) as Hevs.
    destruct (tick_exit (for_loop c l 0 w')) eqn:Hex; [| | done].
    + destruct Hx as (_ & _ & _ & Hno).
      destruct (split_past Q
                  (EvRunning true :: evs ++ tick_trace (for_loop c l 0 w')
                     ++ [EvSleep (timeout c).1 (timeout c).2])
                  rest pre (EvNext (-1)) post) as (pre' & _ & Hin).
      * constructor; [done |]. apply Forall_app. split; [done |].
        apply Forall_app. split; [done |]. by repeat constructor.
      * done.
      * rewrite <- Heq. simpl. f_equal. by rewrite <- !app_assoc.
      * by eapply IH.
    + destruct Hx as (_ & Hnone & tr0 & Htr0 & Hno).
      rewrite Htr0 in Heq.
      destruct (split_past Q (EvRunning true :: evs ++ tr0)
                  (EvNext (-1) :: EvDelete
                     :: EvSleep (timeout c).1 (timeout c).2 :: rest)
                  pre (EvNext (-1)) post) as (pre' & _ & Hin).
      * constructor; [done |]. by apply Forall_app.
      * done.
      * rewrite <- Heq. simpl. f_equal. by rewrite <- !app_assoc.
      * destruct pre' as [| q pre']; simpl in Hin; simplify_eq.
        { eexists. split; [done |]. apply begins_fresh_round.
          rewrite <- Hnone. by eapply loop_trace_begins. }
        destruct (split_past Q [EvDelete; EvSleep (timeout c).1 (timeout c).2]
                    rest pre' (EvNext (-1)) post) as (pre'' & _ & Hin');
          [by repeat constructor | done | done |].
        by eapply IH.
Qed.

(** Before every look at [_running] but the first: the sleep. *)
Lemma loop_trace_recheck c thread_list tr stop :
  loop_trace c thread_list tr stop →
  ∀ pre e post, tr = pre ++ e :: post → is_running e = true →
  pre = [] ∨ ∃ pre', pre = pre' ++ [EvSleep (timeout c).1 (timeout c).2].
Proof.
  set (Q := λ x : Event, is_running x = true).
  induction 1 as [tl | tl | tl w evs l w' Hacq Hexit
                 | tl w evs l w' rest stop Hacq Hexit Hrest IH];
    intros pre e post Heq He.
  - by destruct pre.
  - destruct pre as [| p pre]; [by left |]. exfalso.
    simpl in Heq. injection Heq as _ Heq.
    eapply (not_found Q); [| exact He | exact Heq].
    destruct tl; by repeat constructor.
  - destruct pre as [| p pre]; [by left |]. exfalso.
    simpl in Heq. injection Heq as _ Heq.
    eapply (not_found Q); [| exact He | exact Heq].
    apply Forall_app. split.
    + by eapply (acquire_events _ _ _ _ _ Q).
    + apply in_tick_not_running, for_loop_in_tick.
  - destruct pre as [| p pre]; [by left |]. right.
    simpl in Heq. injection Heq as <- Heq.
    destruct (split_past Q
                (evs ++ tick_trace (for_loop c l 0 w')
                   ++ [EvSleep (timeout c).1 (timeout c).2])
                rest pre e post) as (pre' & -> & Hin).
    + apply Forall_app. split; [by eapply (acquire_events _ _ _ _ _ Q) |].
      apply Forall_app. split; [| by repeat constructor].
      apply in_tick_not_running, for_loop_in_tick.
    + done.
    + rewrite <- Heq. by rewrite <- !app_assoc.
    + destruct (IH pre' e post Hin He) as [-> | (pre'' & ->)].
      * exists (EvRunning true :: evs ++ tick_trace (for_loop c l 0 w')).
        simpl. f_equal. by rewrite app_nil_r, <- !app_assoc.
      * exists (EvRunning true
                :: (evs ++ tick_trace (for_loop c l 0 w')
                      ++ [EvSleep (timeout c).1 (timeout c).2]) ++ pre'').
        simpl. f_equal. by rewrite <- !app_assoc.
Qed.

(** As many sleeps as rounds, but for a round that crashed. *)
Lemma loop_trace_sleeps c thread_list tr stop :
  loop_trace c thread_list tr stop →
  occurrences is_running_true tr
  = (occurrences is_sleep tr + if stop is Crashed then 1 else 0)%nat.
Proof.
  assert (∀ tl w evs l w', acquire tl w = (evs, l, w') →
            occurrences is_running_true evs = O
            ∧ occurrences is_sleep evs = O) as Hacq0.
  { intros tl w evs l w' Hacq.
    by destruct (acquire_cases _ _ _ _ _ Hacq) as [[_ ->] | [_ ->]]. }
  assert (∀ l w, occurrences is_running_true (tick_trace (for_loop c l 0 w)) = O
                 ∧ occurrences is_sleep (tick_trace (for_loop c l 0 w)) = O)
    as Htick0.
  { intros l w. split; apply occurrences_none;
      (eapply Forall_impl; [apply for_loop_in_tick |]); by intros []. }
  induction 1 as [tl | tl | tl w evs l w' Hacq Hexit
                 | tl w evs l w' rest stop Hacq Hexit Hrest IH].
  - done.
  - rewrite !occurrences_cons. simpl. by destruct tl.
  - destruct (Hacq0 _ _ _ _ _ Hacq) as [E1 E2].
    destruct (Htick0 l w') as [E3 E4].
    rewrite !occurrences_cons, !occurrences_app. simpl. lia.
  - destruct (Hacq0 _ _ _ _ _ Hacq) as [E1 E2].
    destruct (Htick0 l w') as [E3 E4].
    rewrite !occurrences_cons, !occurrences_app, !occurrences_cons. simpl. lia.
Qed.



Lemma for_loop_ints c l count w :
  Forall is_int l →
  Forall int_ids (tick_trace (for_loop c l count w))
  ∧ ∀ rest, tick_list (for_loop c l count w) = Some rest → Forall is_int rest.
Proof.
  apply (for_loop_cases c (λ l _ _ t,
    Forall is_int l →
    Forall int_ids (tick_trace t)
    ∧ ∀ rest, tick_list t = Some rest → Forall is_int rest));
    clear l count w; simpl.
  - intros l count w _ Hl. split; [done |]. by intros rest [= <-].
  - intros l count w _ _ _. split; [by repeat constructor | done].
  - intros thread_id rest count w _ _ _ [_ Hl]%Forall_cons.
    split; [by repeat constructor |]. by intros rest' [= <-].
  - intros thread_id rest count w t _ _ _ _ IH [_ Hl]%Forall_cons.
    destruct (IH Hl) as [Htr Hrest]. split; [by constructor | done].
  - intros thread_id rest count w evs count' w' t _ _ _ Hs _ IH
      [Hid Hl]%Forall_cons.
    destruct (IH Hl) as [Htr Hrest]. split; [| done].
    constructor; [done |]. apply Forall_app. split; [| done].
    destruct (sample_cases _ _ _ _ _ _ _ Hs)
      as [[-> _] | (state & signo & ok & -> & _ & _)];
      [done | constructor; [exact Hid | constructor]].
Qed.

Lemma loop_trace_ints c thread_list tr stop :
  loop_trace c thread_list tr stop →
  (∀ l, thread_list = Some l → Forall is_int l) →
  Forall int_ids tr.
Proof.
  assert (∀ tl w evs l w',
            acquire tl w = (evs, l, w') →
            (∀ l0, tl = Some l0 → Forall is_int l0) →
            Forall int_ids evs ∧ Forall is_int l) as Hacq0.
  { intros tl w evs l w' Hacq Htl. unfold acquire in Hacq.
    destruct tl as [l0 |].
    - simplify_eq. split; [done | by apply Htl].
    - pose proof (OS_listThreads_int w) as Hint.
      destruct (OS_listThreads w) as [l0 w0]. simplify_eq.
      split; [by repeat constructor | done]. }
  induction 1 as [tl | tl | tl w evs l w' Hacq Hexit
                 | tl w evs l w' rest stop Hacq Hexit Hrest IH]; intros Htl.
  - done.
  - constructor; [done |]. destruct tl; by repeat constructor.
  - destruct (Hacq0 _ _ _ _ _ Hacq Htl) as [Hevs Hl].
    destruct (for_loop_ints c l 0 w' Hl) as [Htr _].
    constructor; [done |]. by apply Forall_app.
  - destruct (Hacq0 _ _ _ _ _ Hacq Htl) as [Hevs Hl].
    destruct (for_loop_ints c l 0 w' Hl) as [Htr Hlist].
    constructor; [done |]. apply Forall_app. split; [done |].
    apply Forall_app. split; [done |]. constructor; [done |]. by apply IH.
Qed.

(** ** WallClock: the claims *)

(** C3. With a negative interval [start] answers "interval must be
    positive" and leaves the engine and the process as they were: no thread,
    no handler, [_running] untouched.  With any other interval that error is
    not the answer, and [_interval] becomes the default for 0 and the
    configured value otherwise. *)
Theorem start_checks_interval (args : Arguments.t) (rc : Z)
    (s : WallClock.State) (p : Process) :
  (Arguments._interval args < 0 →
   start args rc s p = (Err "interval must be positive", s, p))
  ∧ (0 ≤ Arguments._interval args →
     ∃ e s' p', start args rc s p = (e, s', p')
                ∧ e ≠ Err "interval must be positive"
                ∧ _interval s' = if decide (Arguments._interval args = 0)
                                 then DEFAULT_INTERVAL
                                 else Arguments._interval args).
Proof.
  unfold WallClock.start. split; intros Hi.
  - by rewrite decide_True.
  - rewrite decide_False by lia. unfold pthread_create.
    destruct (decide (rc = 0)) as [-> | Hrc].
    + rewrite (decide_False (P := 0 ≠ 0)) by (intros Hx; by apply Hx).
      eexists _, _, _. split; [done |]. split; [done |]. simpl.
      repeat case_decide; done.
    + rewrite (decide_True (P := rc ≠ 0)) by done.
      eexists _, _, _. split; [done |]. split; [done |]. simpl.
      repeat case_decide; done.
Qed.

(** C9. When the thread cannot be created, [start] answers "Unable to
    create timer thread" with [_running] set, the three handlers installed
    and no thread created: what it did before the failure stays done. *)
Theorem start_thread_failure (args : Arguments.t) (rc : Z)
    (s : WallClock.State) (p : Process) :
  0 ≤ Arguments._interval args → rc ≠ 0 →
  ∃ s' p', start args rc s p = (Err "Unable to create timer thread", s', p')
           ∧ _running s' = true
           ∧ handlers p' !! SIGVTALRM = Some signalHandler
           ∧ handlers p' !! SIGPROF = Some signalHandler
           ∧ handlers p' !! WAKEUP_SIGNAL = Some wakeupHandler
           ∧ threads p' = threads p
           ∧ _thread s' = _thread s
           ∧ (_running s = false → s' ≠ s).
Proof.
  intros Hi Hrc. unfold WallClock.start. rewrite decide_False by lia.
  unfold pthread_create. rewrite (decide_False (P := rc = 0)) by done.
  rewrite (decide_True (P := rc ≠ 0)) by done.
  eexists _, _. split; [done |]. unfold installSignalHandler. simpl.
  split; [done |].
  split; [by rewrite !lookup_insert_ne, lookup_insert_eq by done |].
  split; [by rewrite lookup_insert_ne, lookup_insert_eq by done |].
  split; [by rewrite lookup_insert_eq |].
  do 2 (split; [done |]). intros Hr Heq. rewrite <- Heq in Hr. done.
Qed.

(** C4. [start] sets [_sample_idle_threads] exactly when the event name is
    [EVENT_WALL]; with any other name, the loop started from there never
    signals a thread it saw sleeping. *)
Theorem idle_sampling_by_event (args : Arguments.t) (rc : Z)
    (s : WallClock.State) (p : Process) :
  0 ≤ Arguments._interval args →
  ∃ e s' p',
    start args rc s p = (e, s', p')
    ∧ _sample_idle_threads s'
      = bool_decide (c_str (Arguments._event args) = c_str EVENT_WALL)
    ∧ (c_str (Arguments._event args) ≠ c_str EVENT_WALL →
       ∀ fuel filter (w : W),
         Forall spares_sleeping (timerLoop fuel s' filter w).1).
Proof.
  intros Hi.
  assert (∀ s', _sample_idle_threads s' = false →
            ∀ fuel filter (w : W),
              Forall spares_sleeping (timerLoop fuel s' filter w).1) as Hloop.
  { intros s' Hidle fuel filter w. unfold WallClock.timerLoop.
    apply while_running_Forall; try done.
    apply for_loop_Forall; try done. simpl.
    intros thread_id state signo ok _ _ [[-> _] | (_ & _ & Hcontra)]; [done |].
    congruence. }
  unfold WallClock.start. rewrite decide_False by lia.
  unfold pthread_create.
  destruct (decide (rc = 0)) as [-> | Hrc].
  - rewrite (decide_False (P := 0 ≠ 0)) by (intros Hx; by apply Hx).
    eexists _, _, _. split; [done |]. simpl. split.
    + apply bool_decide_ext, strcmp_eq.
    + intros Hne. apply Hloop. simpl. apply bool_decide_eq_false.
      by rewrite strcmp_eq.
  - rewrite (decide_True (P := rc ≠ 0)) by done.
    eexists _, _, _. split; [done |]. simpl. split.
    + apply bool_decide_ext, strcmp_eq.
    + intros Hne. apply Hloop. simpl. apply bool_decide_eq_false.
      by rewrite strcmp_eq.
Qed.

Lemma in_order_app A : ∀ held B,
  in_order held (A ++ B)
  ↔ in_order held A ∧ in_order (remaining held A) B.
Proof.
  induction A as [| e A IH]; intros held B; simpl; [naive_solver |].
  destruct e; rewrite ?IH; try naive_solver.
  destruct held; simpl; [rewrite IH |]; naive_solver.
Qed.

Lemma remaining_app A : ∀ held B,
  remaining held (A ++ B) = remaining (remaining held A) B.
Proof.
  induction A as [| e A IH]; intros held B; simpl; [done |].
  by destruct e.
Qed.

(** Within a tick [next] hands out the threads in order, and what the tick
    leaves in [thread_list] is what the enumerator still holds, unless the
    tick met the end sentinel with threads behind it. *)
Lemma for_loop_in_order c l count w :
  in_order (Some l) (tick_trace (for_loop c l count w))
  ∧ (tick_exit (for_loop c l count w) ≠ Exhausted →
     remaining (Some l) (tick_trace (for_loop c l count w))
     = tick_list (for_loop c l count w))
  ∧ (tick_exit (for_loop c l count w) = Exhausted →
     remaining (Some l) (tick_trace (for_loop c l count w)) = None).
Proof.
  apply (for_loop_cases c (λ l _ _ t,
    in_order (Some l) (tick_trace t)
    ∧ (tick_exit t ≠ Exhausted → remaining (Some l) (tick_trace t) = tick_list t)
    ∧ (tick_exit t = Exhausted → remaining (Some l) (tick_trace t) = None)));
    clear l count w; simpl.
  - done.
  - intros l count w _ Hnext. by rewrite Hnext.
  - done.
  - intros thread_id rest count w t _ _ _ _ (IH1 & IH2 & IH3). done.
  - intros thread_id rest count w evs count' w' t _ _ _ Hs _ (IH1 & IH2 & IH3).
    destruct (sample_cases _ _ _ _ _ _ _ Hs)
      as [[-> _] | (state & signo & ok & -> & _ & _)]; done.
Qed.

Lemma loop_trace_in_order c thread_list tr stop :
  loop_trace c thread_list tr stop → in_order thread_list tr.
Proof.
  induction 1 as [tl | tl | tl w evs l w' Hacq Hexit
                 | tl w evs l w' rest stop Hacq Hexit Hrest IH]; simpl.
  - done.
  - by destruct tl.
  - destruct (for_loop_in_order c l 0 w') as (Ho & _ & _).
    destruct (acquire_cases _ _ _ _ _ Hacq) as [[-> ->] | [-> ->]]; done.
  - destruct (for_loop_in_order c l 0 w') as (Ho & Hkeep & Hgone).
    pose proof (for_loop_exit c l 0 w') as Hx. simpl in Hx.
    assert (remaining (Some l) (tick_trace (for_loop c l 0 w'))
            = tick_list (for_loop c l 0 w')) as Hrem.
    { destruct (tick_exit (for_loop c l 0 w')) eqn:Hex; [by apply Hkeep | | done].
      destruct Hx as (_ & -> & _). by apply Hgone. }
    assert (in_order (Some l)
              (tick_trace (for_loop c l 0 w')
                 ++ EvSleep (timeout c).1 (timeout c).2 :: rest)) as Hall.
    { rewrite in_order_app, Hrem. done. }
    destruct (acquire_cases _ _ _ _ _ Hacq) as [[-> ->] | [-> ->]]; done.
Qed.






(** C6. No signal of the loop goes to the controller's own thread, nor,
    when filtering was enabled as the loop was entered, to a thread the
    filter does not accept; so with a filter that is enabled and accepts no
    [int] but [target], every signal goes to [target]. *)
Theorem loop_exclusion (fuel : nat) (s : WallClock.State)
    (filter : ThreadFilter.State) (w : W) (target : Z) :
  Forall (respects_filter (OS_threadId w) filter) (timerLoop fuel s filter w).1
  ∧ (ThreadFilter.enabled filter = true →
     (∀ t, is_int t → accept t filter = Some true → t = target) →
     Forall (only_signals target) (timerLoop fuel s filter w).1).
Proof.
  assert (Forall (respects_filter (OS_threadId w) filter)
            (timerLoop fuel s filter w).1) as Hresp.
  { unfold WallClock.timerLoop. apply while_running_Forall; try done.
    apply for_loop_Forall; try done; simpl;
      intros thread_id state signo ok Hself Hacc _; done. }
  split; [done |]. intros Hen Honly.
  assert (Forall int_ids (timerLoop fuel s filter w).1) as Hint.
  { unfold WallClock.timerLoop.
    eapply loop_trace_ints; [apply while_running_trace | done]. }
  pose proof (proj2 (Forall_and _ _) (conj Hresp Hint)) as Hboth.
  eapply Forall_impl; [exact Hboth |].
  intros [| | | | thread_id state signo ok |]; simpl; try done.
  intros [[_ Hacc] Hid]. apply Honly; [done | by apply Hacc].
Qed.

(** C7. The timeout handed to [nanosleep] is the whole of [_interval].  An
    end sentinel is followed at once by the [delete] and the sleep, and the
    round after that, if [_running] still holds, starts with a new
    enumeration.  Every look at [_running] but the first comes right after
    a sleep of that timeout, and every round that did not crash has its
    sleep. *)
Theorem loop_cadence (fuel : nat) (s : WallClock.State)
    (filter : ThreadFilter.State) (w : W) :
  let tr := (timerLoop fuel s filter w).1 in
  let stop := (timerLoop fuel s filter w).2 in
  let tv_sec := Z.quot (_interval s) 1000000000 in
  let tv_nsec := Z.rem (_interval s) 1000000000 in
  _interval s = 1000000000 * tv_sec + tv_nsec
  ∧ (∀ pre post, tr = pre ++ EvNext (-1) :: post →
       ∃ post', post = EvDelete :: EvSleep tv_sec tv_nsec :: post'
                ∧ fresh_round post')
  ∧ (∀ pre e post, tr = pre ++ e :: post → is_running e = true →
       pre = [] ∨ ∃ pre', pre = pre' ++ [EvSleep tv_sec tv_nsec])
  ∧ occurrences is_running_true tr
    = (occurrences is_sleep tr + if stop is Crashed then 1 else 0)%nat.
Proof.
  intros tr stop tv_sec tv_nsec.
  pose proof (while_running_trace
    (mkLocals (OS_threadId w) filter (ThreadFilter.enabled filter)
       (_sample_idle_threads s) (tv_sec, tv_nsec)) fuel None w) as Htr.
  split; [apply Z.quot_rem'; lia |]. split; [| split].
  - intros pre post Heq. by eapply (loop_trace_sentinel _ _ _ _ Htr).
  - intros pre e post Heq He. by eapply (loop_trace_recheck _ _ _ _ Htr).
  - by apply (loop_trace_sleeps _ _ _ _ Htr).
Qed.

(** C8. A candidate that is not the end sentinel, not the controller's own
    thread and not rejected by an enabled filter is looked at: seen running,
    it is sent [SIGPROF]; seen sleeping with idle sampling on, it is sent
    [SIGVTALRM]; in both cases [count] goes up exactly when the signal was
    delivered.  Seen sleeping with idle sampling off, or in any other state,
    it gets no signal and [count] stays. *)
Theorem signal_routing (c : Locals) (thread_id : Z) (rest : ThreadList)
    (count : Z) (w : W) :
  count < THREADS_PER_TICK →
  thread_id ≠ -1 →
  thread_id ≠ self c →
  (thread_filter_enabled c = true →
   accept thread_id (thread_filter c) = Some true) →
  for_loop c (thread_id :: rest) count w =
    let '(state, w1) := OS_threadState thread_id w in
    match state with
    | THREAD_RUNNING =>
        let '(ok, w2) := OS_sendSignalToThread thread_id SIGPROF w1 in
        emit [EvNext thread_id; EvSignal thread_id THREAD_RUNNING SIGPROF ok]
             (for_loop c rest (if ok then count + 1 else count) w2)
    | THREAD_SLEEPING =>
        if sample_idle_threads c
        then
          let '(ok, w2) := OS_sendSignalToThread thread_id SIGVTALRM w1 in
          emit [EvNext thread_id;
                EvSignal thread_id THREAD_SLEEPING SIGVTALRM ok]
               (for_loop c rest (if ok then count + 1 else count) w2)
        else emit [EvNext thread_id] (for_loop c rest count w1)
    | THREAD_INVALID => emit [EvNext thread_id] (for_loop c rest count w1)
    end.
Proof.
  intros Hc Hid Hself Hacc.
  assert (skipped c thread_id = Some false) as Hsk.
  { unfold WallClock.skipped. rewrite decide_False by done.
    destruct (thread_filter_enabled c); [| done]. by rewrite Hacc. }
  simpl. rewrite decide_True by done. rewrite decide_False by done.
  rewrite Hsk. unfold sample.
  destruct (OS_threadState thread_id w) as [state w1].
  destruct state; [done | |].
  - by destruct (OS_sendSignalToThread thread_id SIGPROF w1) as [ok w2].
  - destruct (sample_idle_threads c); [| done].
    by destruct (OS_sendSignalToThread thread_id SIGVTALRM w1) as [ok w2].
Qed.

(** ** WallClock: beyond the claims *)

Lemma protocol_app A : ∀ held B,
  protocol held (A ++ B) ↔ protocol held A ∧ protocol (held_after held A) B.
Proof.
  induction A as [| e A IH]; intros held B; simpl; [naive_solver |].
  destruct e; rewrite ?IH; naive_solver.
Qed.

Lemma held_after_app A : ∀ held B,
  held_after held (A ++ B) = held_after (held_after held A) B.
Proof.
  induction A as [| e A IH]; intros held B; simpl; [done |].
  by destruct e.
Qed.

Lemma for_loop_protocol c l count w :
  protocol true (tick_trace (for_loop c l count w))
  ∧ held_after true (tick_trace (for_loop c l count w))
    = (if tick_list (for_loop c l count w) is Some _ then true else false).
Proof.
  apply (for_loop_cases c (λ _ _ _ t,
    protocol true (tick_trace t)
    ∧ held_after true (tick_trace t)
      = (if tick_list t is Some _ then true else false)));
    clear l count w; simpl.
  - done.
  - done.
  - done.
  - intros thread_id rest count w t _ _ _ _ [IH1 IH2]. done.
  - intros thread_id rest count w evs count' w' t _ _ _ Hs _ [IH1 IH2].
    destruct (sample_cases _ _ _ _ _ _ _ Hs)
      as [[-> _] | (state & signo & ok & -> & _ & _)]; done.
Qed.

Lemma loop_trace_protocol c thread_list tr stop :
  loop_trace c thread_list tr stop →
  let held := if thread_list is Some _ then true else false in
  protocol held tr ∧ (stop = Returned → held_after held tr = false).
Proof.
  induction 1 as [tl | tl | tl w evs l w' Hacq Hexit
                 | tl w evs l w' rest stop Hacq Hexit Hrest IH]; simpl.
  - done.
  - by destruct tl.
  - destruct (for_loop_protocol c l 0 w') as [Hp _]. split; [| done].
    destruct (acquire_cases _ _ _ _ _ Hacq) as [[-> ->] | [-> ->]]; done.
  - destruct (for_loop_protocol c l 0 w') as [Hp Hh].
    simpl in IH. destruct IH as [IHp IHh].
    assert (protocol true
              (tick_trace (for_loop c l 0 w')
                 ++ EvSleep (timeout c).1 (timeout c).2 :: rest)
            ∧ (stop = Returned →
               held_after true
                 (tick_trace (for_loop c l 0 w')
                    ++ EvSleep (timeout c).1 (timeout c).2 :: rest) = false))
      as [Hall Hend].
    { rewrite protocol_app, held_after_app, Hh. simpl. done. }
    destruct (acquire_cases _ _ _ _ _ Hacq) as [[-> ->] | [-> ->]]; done.
Qed.

Lemma paired_weaken tr prev : paired None tr → paired prev tr.
Proof. destruct tr as [| [] tr]; simpl; try done. by intros [? ?]. Qed.

Lemma paired_app A : ∀ prev B,
  paired prev A → paired None B → paired prev (A ++ B).
Proof.
  induction A as [| e A IH]; intros prev B HA HB; simpl.
  { by apply paired_weaken. }
  destruct e; simpl in *; try (by apply IH).
  destruct HA as [? HA]. split; [done | by apply IH].
Qed.

Lemma for_loop_paired c l count w :
  paired None (tick_trace (for_loop c l count w)).
Proof.
  apply (for_loop_cases c (λ _ _ _ t, paired None (tick_trace t)));
    clear l count w; simpl; try done.
  - intros thread_id rest count w t _ _ _ _ IH. by apply paired_weaken.
  - intros thread_id rest count w evs count' w' t _ _ _ Hs _ IH.
    destruct (sample_cases _ _ _ _ _ _ _ Hs)
      as [[-> _] | (state & signo & ok & -> & _ & _)]; simpl.
    + by apply paired_weaken.
    + done.
Qed.

Lemma loop_trace_paired c thread_list tr stop :
  loop_trace c thread_list tr stop → paired None tr.
Proof.
  induction 1 as [tl | tl | tl w evs l w' Hacq Hexit
                 | tl w evs l w' rest stop Hacq Hexit Hrest IH]; simpl.
  - done.
  - by destruct tl.
  - apply paired_app; [| apply for_loop_paired].
    by destruct (acquire_cases _ _ _ _ _ Hacq) as [[_ ->] | [_ ->]].
  - apply paired_app; [| apply paired_app; [apply for_loop_paired | done]].
    by destruct (acquire_cases _ _ _ _ _ Hacq) as [[_ ->] | [_ ->]].
Qed.

Lemma listed_app A B : listed (A ++ B) = listed A ++ listed B.
Proof.
  induction A as [| e A IH]; simpl; [done |].
  destruct e; simpl; try done. by rewrite IH, app_assoc.
Qed.

Lemma signal_among_mono ids ids' e :
  ids ⊆ ids' → signal_among ids e → signal_among ids' e.
Proof. intros Hsub. destruct e; simpl; try done. apply Hsub. Qed.

Lemma for_loop_among c l count w :
  Forall (signal_among l) (tick_trace (for_loop c l count w))
  ∧ listed (tick_trace (for_loop c l count w)) = []
  ∧ ∀ rest, tick_list (for_loop c l count w) = Some rest → rest ⊆ l.
Proof.
  apply (for_loop_cases c (λ l _ _ t,
    Forall (signal_among l) (tick_trace t)
    ∧ listed (tick_trace t) = []
    ∧ ∀ rest, tick_list t = Some rest → rest ⊆ l));
    clear l count w; simpl.
  - intros l count w _. do 2 (split; [done |]). by intros rest [= <-].
  - intros l count w _ _. split; [by repeat constructor | done].
  - intros thread_id rest count w _ _ _.
    split; [by repeat constructor |]. split; [done |].
    intros rest' [= <-]. set_solver.
  - intros thread_id rest count w t _ _ _ _ (IH1 & IH2 & IH3).
    split; [| split; [done |]].
    + constructor; [done |]. eapply Forall_impl; [done |].
      intros e. apply signal_among_mono. set_solver.
    + intros rest' Hr. specialize (IH3 _ Hr). set_solver.
  - intros thread_id rest count w evs count' w' t _ _ _ Hs _
      (IH1 & IH2 & IH3).
    assert (Forall (signal_among (thread_id :: rest)) evs ∧ listed evs = [])
      as [He1 He2].
    { destruct (sample_cases _ _ _ _ _ _ _ Hs)
        as [[-> _] | (state & signo & ok & -> & _ & _)]; [done |].
      split; [| done]. constructor; [| done]. simpl. set_solver. }
    split; [| split].
    + constructor; [done |]. apply Forall_app. split; [done |].
      eapply Forall_impl; [done |].
      intros e. apply signal_among_mono. set_solver.
    + by rewrite listed_app, He2, IH2.
    + intros rest' Hr. specialize (IH3 _ Hr). set_solver.
Qed.

Lemma loop_trace_among c thread_list tr stop :
  loop_trace c thread_list tr stop →
  Forall (signal_among (default [] thread_list ++ listed tr)) tr.
Proof.
  induction 1 as [tl | tl | tl w evs l w' Hacq Hexit
                 | tl w evs l w' rest stop Hacq Hexit Hrest IH]; simpl.
  - done.
  - constructor; [done |]. destruct tl; by repeat constructor.
  - destruct (for_loop_among c l 0 w') as (Ht & _ & _).
    constructor; [done |].
    destruct (acquire_cases _ _ _ _ _ Hacq) as [[-> ->] | [-> ->]]; simpl.
    + constructor; [done |]. eapply Forall_impl; [done |].
      intros e. apply signal_among_mono. set_solver.
    + eapply Forall_impl; [done |].
      intros e. apply signal_among_mono. set_solver.
  - destruct (for_loop_among c l 0 w') as (Ht & Hl & Hsub).
    assert (Forall (signal_among (l ++ listed rest))
              (tick_trace (for_loop c l 0 w')
                 ++ EvSleep (timeout c).1 (timeout c).2 :: rest)) as Hall.
    { apply Forall_app. split.
      - eapply Forall_impl; [done |].
        intros e. apply signal_among_mono. set_solver.
      - constructor; [done |]. eapply Forall_impl; [done |].
        intros e. apply signal_among_mono.
        destruct (tick_list (for_loop c l 0 w')) as [l' |] eqn:Hlist; simpl;
          [| set_solver].
        specialize (Hsub l' eq_refl). set_solver. }
    constructor; [done |].
    destruct (acquire_cases _ _ _ _ _ Hacq) as [[-> ->] | [-> ->]]; simpl.
    + constructor; [done |].
      by rewrite listed_app, Hl.
    + by rewrite listed_app, Hl.
Qed.

Lemma for_loop_defined (good : Z → Prop) c :
  (∀ thread_id, good thread_id → is_Some (skipped c thread_id)) →
  ∀ l count w,
    Forall good l →
    tick_exit (for_loop c l count w) ≠ Undefined
    ∧ ∀ rest, tick_list (for_loop c l count w) = Some rest → Forall good rest.
Proof.
  intros Hgood.
  apply (for_loop_cases c (λ l _ _ t,
    Forall good l →
    tick_exit t ≠ Undefined
    ∧ ∀ rest, tick_list t = Some rest → Forall good rest)); simpl.
  - intros l count w _ Hl. split; [done |]. by intros rest [= <-].
  - done.
  - intros thread_id rest count w _ _ Hsk [Hid _]%Forall_cons.
    destruct (Hgood _ Hid) as [b Hb]. congruence.
  - intros thread_id rest count w t _ _ _ _ IH [_ Hl]%Forall_cons. by apply IH.
  - intros thread_id rest count w evs count' w' t _ _ _ _ _ IH
      [_ Hl]%Forall_cons. by apply IH.
Qed.

Lemma loop_trace_defined (good : Z → Prop) c thread_list tr stop :
  (∀ thread_id, good thread_id → is_Some (skipped c thread_id)) →
  (∀ w : W, Forall good (OS_listThreads w).1) →
  loop_trace c thread_list tr stop →
  (∀ l, thread_list = Some l → Forall good l) →
  stop ≠ Crashed.
Proof.
  intros Hgood Henv.
  assert (∀ tl w evs l w',
            acquire tl w = (evs, l, w') →
            (∀ l0, tl = Some l0 → Forall good l0) → Forall good l) as Hacq0.
  { intros tl w evs l w' Hacq Htl. unfold acquire in Hacq.
    destruct tl as [l0 |].
    - simplify_eq. by apply Htl.
    - specialize (Henv w). destruct (OS_listThreads w) as [l0 w0].
      by simplify_eq. }
  induction 1 as [tl | tl | tl w evs l w' Hacq Hexit
                 | tl w evs l w' rest stop Hacq Hexit Hrest IH]; intros Htl.
  - done.
  - done.
  - pose proof (Hacq0 _ _ _ _ _ Hacq Htl) as Hl.
    by destruct (for_loop_defined good c Hgood l 0 w' Hl).
  - pose proof (Hacq0 _ _ _ _ _ Hacq Htl) as Hl.
    destruct (for_loop_defined good c Hgood l 0 w' Hl) as [_ Hrest'].
    by apply IH.
Qed.

Lemma loop_trace_last c thread_list tr stop :
  loop_trace c thread_list tr stop →
  ∀ pre post, tr = pre ++ EvRunning false :: post →
  (post = [] ∨ post = [EvDelete]) ∧ stop = Returned.
Proof.
  set (Q := λ x : Event, x = EvRunning false).
  induction 1 as [tl | tl | tl w evs l w' Hacq Hexit
                 | tl w evs l w' rest stop Hacq Hexit Hrest IH];
    intros pre post Heq.
  - by destruct pre.
  - destruct pre as [| e pre]; simpl in Heq.
    + injection Heq as <-. split; [| done]. destruct tl; auto.
    + exfalso. injection Heq as _ Heq.
      eapply (not_found Q); [| | exact Heq]; [| done].
      destruct tl; by repeat constructor.
  - exfalso. eapply (not_found Q); [| | exact Heq]; [| done].
    constructor; [done |]. apply Forall_app. split.
    + by eapply (acquire_events _ _ _ _ _ Q).
    + eapply Forall_impl; [apply for_loop_in_tick |]. by intros [].
  - destruct (split_past Q
                (EvRunning true :: evs ++ tick_trace (for_loop c l 0 w')
                   ++ [EvSleep (timeout c).1 (timeout c).2])
                rest pre (EvRunning false) post) as (pre' & _ & Hin).
    + constructor; [done |]. apply Forall_app. split.
      * by eapply (acquire_events _ _ _ _ _ Q).
      * apply Forall_app. split; [| by repeat constructor].
        eapply Forall_impl; [apply for_loop_in_tick |]. by intros [].
    + done.
    + rewrite <- Heq. simpl. f_equal. by rewrite <- !app_assoc.
    + by eapply IH.
Qed.

Lemma loop_trace_returned c thread_list tr stop :
  loop_trace c thread_list tr stop → stop = Returned →
  EvRunning false ∈ tr.
Proof.
  induction 1 as [tl | tl | tl w evs l w' Hacq Hexit
                 | tl w evs l w' rest stop Hacq Hexit Hrest IH]; intros Hs;
    try done.
  - set_solver.
  - specialize (IH Hs). set_solver.
Qed.

(** X9. [start] answers [OK] exactly when the interval is not negative and
    the thread was created; it then has created one thread, remembered it
    and set [_running].  Whatever it answers, the handlers of all signals
    other than its three are as before. *)
Theorem start_outcome (args : Arguments.t) (rc : Z)
    (s : WallClock.State) (p : Process) :
  ∃ e s' p',
    start args rc s p = (e, s', p')
    ∧ (e = OK ↔ 0 ≤ Arguments._interval args ∧ rc = 0)
    ∧ (e = OK →
       threads p' = threads p ++ [()]
       ∧ _thread s' = Some (length (threads p))
       ∧ _running s' = true)
    ∧ ∀ signo, signo ≠ SIGVTALRM → signo ≠ SIGPROF → signo ≠ WAKEUP_SIGNAL →
               handlers p' !! signo = handlers p !! signo.
Proof.
  unfold WallClock.start.
  destruct (decide (Arguments._interval args < 0)) as [Hneg | Hpos].
  { eexists _, _, _. split; [done |]. split; [| done].
    split; [done | lia]. }
  unfold pthread_create, installSignalHandler.
  destruct (decide (rc = 0)) as [-> | Hrc].
  - rewrite (decide_False (P := 0 ≠ 0)) by (intros Hx; by apply Hx).
    eexists _, _, _. split; [done |]. simpl. split; [split; [lia | done] |].
    split; [done |]. intros signo H1 H2 H3.
    by rewrite !lookup_insert_ne by done.
  - rewrite (decide_True (P := rc ≠ 0)) by done.
    eexists _, _, _. split; [done |]. simpl.
    split; [split; [done | by intros [_ ?]] |].
    split; [done |]. intros signo H1 H2 H3.
    by rewrite !lookup_insert_ne by done.
Qed.

(** X10. After a [start] that got past the interval check, with a positive
    default, [_interval] is positive and every sleep of the loop is asked
    for with a [timespec] that is valid and not zero. *)
Theorem loop_sleeps_valid (args : Arguments.t) (rc : Z)
    (s : WallClock.State) (p : Process) :
  0 < DEFAULT_INTERVAL → 0 ≤ Arguments._interval args →
  ∃ e s' p',
    start args rc s p = (e, s', p')
    ∧ 0 < _interval s'
    ∧ ∀ fuel filter (w : W),
        Forall valid_sleep (timerLoop fuel s' filter w).1.
Proof.
  intros Hdef Hi.
  assert (∀ s', 0 < _interval s' →
            ∀ fuel filter (w : W),
              Forall valid_sleep (timerLoop fuel s' filter w).1) as Hloop.
  { intros s' Hpos fuel filter w. unfold WallClock.timerLoop.
    apply while_running_Forall; try done.
    - simpl.
      pose proof (Z.quot_rem' (_interval s') 1000000000) as Hqr.
      pose proof (Z.rem_bound_pos (_interval s') 1000000000
                    ltac:(lia) ltac:(lia)).
      pose proof (Z.quot_pos (_interval s') 1000000000
                    ltac:(lia) ltac:(lia)).
      lia.
    - by apply for_loop_Forall. }
  unfold WallClock.start. rewrite decide_False by lia.
  unfold pthread_create.
  destruct (decide (rc = 0)) as [-> | Hrc].
  - rewrite (decide_False (P := 0 ≠ 0)) by (intros Hx; by apply Hx).
    eexists _, _, _. split; [done |].
    assert (0 < (if decide (Arguments._interval args ≠ 0)
                 then Arguments._interval args else DEFAULT_INTERVAL))
      by (case_decide; lia).
    split; [done |]. by apply Hloop.
  - rewrite (decide_True (P := rc ≠ 0)) by done.
    eexists _, _, _. split; [done |].
    assert (0 < (if decide (Arguments._interval args ≠ 0)
                 then Arguments._interval args else DEFAULT_INTERVAL))
      by (case_decide; lia).
    split; [done |]. by apply Hloop.
Qed.

(** X11. Every signal the loop sends is [SIGPROF] or [SIGVTALRM], never the
    wakeup signal, and a [start] that got past the interval check has
    installed [signalHandler] for it, whether or not the thread could be
    created. *)
Theorem loop_signals_handled (args : Arguments.t) (rc : Z)
    (s : WallClock.State) (p : Process) :
  0 ≤ Arguments._interval args →
  ∃ e s' p',
    start args rc s p = (e, s', p')
    ∧ ∀ fuel s0 filter (w : W),
        Forall (handled p') (timerLoop fuel s0 filter w).1.
Proof.
  intros Hi.
  assert (∀ p' : Process,
            handlers p' !! SIGPROF = Some signalHandler →
            handlers p' !! SIGVTALRM = Some signalHandler →
            ∀ fuel s0 filter (w : W),
              Forall (handled p') (timerLoop fuel s0 filter w).1) as Hloop.
  { intros p' Hprof Hvt fuel s0 filter w. unfold WallClock.timerLoop.
    apply while_running_Forall; try done.
    apply for_loop_Forall; try done. simpl.
    intros thread_id state signo ok _ _ [[_ ->] | (_ & -> & _)]; done. }
  unfold WallClock.start. rewrite decide_False by lia.
  unfold pthread_create, installSignalHandler.
  destruct (decide (rc = 0)) as [-> | Hrc].
  - rewrite (decide_False (P := 0 ≠ 0)) by (intros Hx; by apply Hx).
    eexists _, _, _. split; [done |]. apply Hloop; simpl.
    + by rewrite lookup_insert_ne, lookup_insert_eq by done.
    + by rewrite !lookup_insert_ne, lookup_insert_eq by done.
  - rewrite (decide_True (P := rc ≠ 0)) by done.
    eexists _, _, _. split; [done |]. apply Hloop; simpl.
    + by rewrite lookup_insert_ne, lookup_insert_eq by done.
    + by rewrite !lookup_insert_ne, lookup_insert_eq by done.
Qed.

(** X12. The loop keeps the discipline of the enumerator: it lists the
    threads only when it holds no enumerator, calls [next] and [delete] only
    on one it holds, and holds none when it returns. *)
Theorem loop_enumerator_discipline (fuel : nat) (s : WallClock.State)
    (filter : ThreadFilter.State) (w : W) :
  protocol false (timerLoop fuel s filter w).1
  ∧ ((timerLoop fuel s filter w).2 = Returned →
     held_after false (timerLoop fuel s filter w).1 = false).
Proof.
  unfold WallClock.timerLoop.
  set (c := mkLocals _ _ _ _ _).
  exact (loop_trace_protocol c None _ _ (while_running_trace c fuel None w)).
Qed.

(** X13. A signal goes to the thread that [next] handed out in the call
    just before, at most one per call, and so only to threads that an
    enumeration of the trace has listed. *)
Theorem loop_signals_enumerated (fuel : nat) (s : WallClock.State)
    (filter : ThreadFilter.State) (w : W) :
  paired None (timerLoop fuel s filter w).1
  ∧ Forall (signal_among (listed (timerLoop fuel s filter w).1))
      (timerLoop fuel s filter w).1.
Proof.
  unfold WallClock.timerLoop.
  set (c := mkLocals _ _ _ _ _).
  pose proof (while_running_trace c fuel None w) as Htr. split.
  - by eapply loop_trace_paired.
  - exact (loop_trace_among c None _ _ Htr).
Qed.

(** X14. With filtering off the loop never consults the filter, so it
    cannot run into an identifier the filter is undefined on. *)
Theorem loop_defined_without_filter (fuel : nat) (s : WallClock.State)
    (filter : ThreadFilter.State) (w : W) :
  ThreadFilter.enabled filter = false →
  (timerLoop fuel s filter w).2 ≠ Crashed.
Proof.
  intros Hoff. unfold WallClock.timerLoop.
  eapply (loop_trace_defined (λ _, True)); [| | apply while_running_trace |].
  - intros thread_id _. unfold WallClock.skipped. simpl.
    case_decide; [done |]. by rewrite Hoff.
  - intros w0. by apply Forall_true.
  - done.
Qed.

(** X15. With a reachable filter and an [OS] that lists addressable
    identifiers only, the loop never reads the filter out of bounds. *)
Theorem loop_defined_in_range (MAX_BITMAPS : Z) (fuel : nat)
    (s : WallClock.State) (filter : ThreadFilter.State) (w : W) :
  0 < BITMAP_SIZE → BITMAP_SIZE mod 4 = 0 →
  reachable BITMAP_SIZE MAX_BITMAPS filter →
  (∀ w0 : W, Forall (in_range BITMAP_SIZE MAX_BITMAPS) (OS_listThreads w0).1) →
  (timerLoop fuel s filter w).2 ≠ Crashed.
Proof.
  intros Hpos Hwords Hr Henv. unfold WallClock.timerLoop.
  pose proof (reachable_wf _ _ Hpos Hwords filter Hr) as Hwf.
  eapply (loop_trace_defined (in_range BITMAP_SIZE MAX_BITMAPS));
    [| exact Henv | apply while_running_trace | done].
  intros thread_id Hid. unfold WallClock.skipped. simpl.
  case_decide; [done |]. destruct (ThreadFilter.enabled filter); [| done].
  destruct (accept_is_Some _ _ Hpos Hwords _ _ Hwf Hid) as [b ->]. done.
Qed.

(** X16. The loop returns exactly when it has read [_running] as false,
    and after that read it does nothing but delete the enumerator it
    holds: no signal, no sleep, no further round. *)
Theorem loop_returns_on_false (fuel : nat) (s : WallClock.State)
    (filter : ThreadFilter.State) (w : W) :
  ((timerLoop fuel s filter w).2 = Returned
   ↔ EvRunning false ∈ (timerLoop fuel s filter w).1)
  ∧ ∀ pre post,
      (timerLoop fuel s filter w).1 = pre ++ EvRunning false :: post →
      post = [] ∨ post = [EvDelete].
Proof.
  unfold WallClock.timerLoop.
  set (c := mkLocals _ _ _ _ _).
  pose proof (while_running_trace c fuel None w) as Htr.
  split; [split |].
  - by apply (loop_trace_returned _ _ _ _ Htr).
  - intros (pre & post & Heq)%list_elem_of_split.
    by destruct (loop_trace_last _ _ _ _ Htr pre post Heq).
  - intros pre post Heq.
    by destruct (loop_trace_last _ _ _ _ Htr pre post Heq).
Qed.

(** X17. After a [start] that answered [OK], [stop] clears [_running] and
    sends the wakeup signal to the thread [start] created, then joins it;
    [start] has installed [wakeupHandler] for that signal.  After a [start]
    that could not create the thread, on an engine that never had one,
    [stop] has no thread to signal. *)
Theorem start_then_stop (args : Arguments.t) (rc : Z)
    (s : WallClock.State) (p : Process) :
  0 ≤ Arguments._interval args →
  ∃ e s' p',
    start args rc s p = (e, s', p')
    ∧ handlers p' !! WAKEUP_SIGNAL = Some wakeupHandler
    ∧ (rc = 0 →
       ∃ s'', stop s' = Some (s'', [Kill (length (threads p)) WAKEUP_SIGNAL;
                                    Join (length (threads p))])
              ∧ _running s'' = false
              ∧ _interval s'' = _interval s'
              ∧ _sample_idle_threads s'' = _sample_idle_threads s')
    ∧ (rc ≠ 0 → _thread s = None → stop s' = None).
Proof.
  intros Hi. unfold WallClock.start. rewrite decide_False by lia.
  unfold pthread_create, installSignalHandler.
  destruct (decide (rc = 0)) as [-> | Hrc].
  - rewrite (decide_False (P := 0 ≠ 0)) by (intros Hx; by apply Hx).
    eexists _, _, _. split; [done |]. simpl.
    split; [by rewrite lookup_insert_eq |]. split; [| done].
    intros _. unfold stop. simpl. eexists. by repeat split.
  - rewrite (decide_True (P := rc ≠ 0)) by done.
    eexists _, _, _. split; [done |]. simpl.
    split; [by rewrite lookup_insert_eq |]. split; [done |].
    intros _ Hnone. unfold stop. simpl. by rewrite Hnone.
Qed.

Lemma for_loop_delete c l count w :
  ∀ pre post,
    tick_trace (for_loop c l count w) = pre ++ EvDelete :: post →
    post = [] ∧ ∃ pre', pre = pre' ++ [EvNext (-1)].
Proof.
  apply (for_loop_cases c (λ _ _ _ t,
    ∀ pre post, tick_trace t = pre ++ EvDelete :: post →
                post = [] ∧ ∃ pre', pre = pre' ++ [EvNext (-1)]));
    clear l count w; simpl.
  - intros l count w _ pre post Heq. by destruct pre.
  - intros l count w _ _ pre post Heq.
    destruct pre as [| a [| b pre]]; simpl in Heq; simplify_eq.
    + split; [done |]. by exists [].
    + by destruct pre.
  - intros thread_id rest count w _ _ _ pre post Heq.
    destruct pre as [| a pre]; simpl in Heq; simplify_eq. by destruct pre.
  - intros thread_id rest count w t _ _ _ _ IH pre post Heq.
    destruct pre as [| a pre]; simpl in Heq; [done |].
    injection Heq as <- Heq.
    destruct (IH pre post Heq) as [-> [pre' ->]].
    split; [done |]. by exists (EvNext thread_id :: pre').
  - intros thread_id rest count w evs count' w' t _ _ _ Hs _ IH pre post Heq.
    destruct (sample_cases _ _ _ _ _ _ _ Hs)
      as [[-> _] | (state & signo & ok & -> & _ & _)]; simpl in Heq.
    + destruct pre as [| a pre]; simpl in Heq; [done |].
      injection Heq as <- Heq.
      destruct (IH pre post Heq) as [-> [pre' ->]].
      split; [done |]. by exists (EvNext thread_id :: pre').
    + destruct pre as [| a [| b pre]]; simpl in Heq; [done | done |].
      injection Heq as <- <- Heq.
      destruct (IH pre post Heq) as [-> [pre' ->]].
      split; [done |]. by eexists (EvNext thread_id :: _ :: pre').
Qed.

Lemma loop_trace_delete c thread_list tr stop :
  loop_trace c thread_list tr stop →
  ∀ pre post, tr = pre ++ EvDelete :: post →
  ∃ pre', pre = pre' ++ [EvNext (-1)] ∨ pre = pre' ++ [EvRunning false].
Proof.
  set (Q := λ x : Event, x = EvDelete).
  induction 1 as [tl | tl | tl w evs l w' Hacq Hexit
                 | tl w evs l w' rest stop Hacq Hexit Hrest IH];
    intros pre post Heq.
  - by destruct pre.
  - destruct tl; simpl in Heq.
    + destruct pre as [| a [| b pre]]; simpl in Heq; [done | |].
      * injection Heq as <- _. exists []. by right.
      * injection Heq as _ _ Heq. by destruct pre.
    + destruct pre as [| a pre]; simpl in Heq; [done |].
      injection Heq as _ Heq. by destruct pre.
  - destruct (split_past Q (EvRunning true :: evs)
                (tick_trace (for_loop c l 0 w')) pre EvDelete post)
      as (pre' & -> & Hin); [| done | done |].
    { constructor; [done |]. by eapply (acquire_events _ _ _ _ _ Q). }
    destruct (for_loop_delete c l 0 w' pre' post Hin) as [_ [pre'' ->]].
    exists ((EvRunning true :: evs) ++ pre''). left. by rewrite <- app_assoc.
  - destruct (split_past Q (EvRunning true :: evs)
                (tick_trace (for_loop c l 0 w')
                   ++ EvSleep (timeout c).1 (timeout c).2 :: rest)
                pre EvDelete post)
      as (pre' & -> & Hin); [| done | done |].
    { constructor; [done |]. by eapply (acquire_events _ _ _ _ _ Q). }
    apply List.app_eq_app in Hin as [mid [[Ht Hp] | [Hp Hs]]].
    + destruct mid as [| m mid]; simpl in Hp; [done |].
      injection Hp as <- Hp.
      destruct (for_loop_delete c l 0 w' _ _ Ht) as [_ [pre'' ->]].
      exists ((EvRunning true :: evs) ++ pre''). left.
      by rewrite <- app_assoc.
    + destruct mid as [| m mid]; simpl in Hs; [done |].
      injection Hs as <- Hs. subst pre'.
      destruct (IH mid post Hs) as [pre'' [-> | ->]].
      * eexists ((EvRunning true :: evs)
                   ++ tick_trace (for_loop c l 0 w')
                   ++ EvSleep (timeout c).1 (timeout c).2 :: pre'').
        left. simpl. by rewrite <- !app_assoc.
      * eexists ((EvRunning true :: evs)
                   ++ tick_trace (for_loop c l 0 w')
                   ++ EvSleep (timeout c).1 (timeout c).2 :: pre'').
        right. simpl. by rewrite <- !app_assoc.
Qed.

(** X18. Across ticks, [next] hands out the threads of an enumeration in
    the order the [OS] listed them, skipping and repeating none, and the
    loop deletes an enumerator only right after its end sentinel or right
    after it has read [_running] as false. *)
Theorem loop_visits_in_order (fuel : nat) (s : WallClock.State)
    (filter : ThreadFilter.State) (w : W) :
  in_order None (timerLoop fuel s filter w).1
  ∧ ∀ pre post,
      (timerLoop fuel s filter w).1 = pre ++ EvDelete :: post →
      ∃ pre', pre = pre' ++ [EvNext (-1)] ∨ pre = pre' ++ [EvRunning false].
Proof.
  unfold WallClock.timerLoop.
  set (c := mkLocals _ _ _ _ _).
  pose proof (while_running_trace c fuel None w) as Htr. split.
  - exact (loop_trace_in_order c None _ _ Htr).
  - exact (loop_trace_delete c None _ _ Htr).
Qed.

End EngineFacts.

(** ** The claims at work *)

(** Discharges [in_range] and [op_in_range] on literals. *)
Ltac in_range_literal :=
  unfold ThreadFilter.op_in_range, ThreadFilter.in_range, is_int,
    BITMAP_CAPACITY; lia.


(** C2 on the example filter. *)
Lemma filter_clear_keeps_chunks_witness :
  ∃ s', clear 65536 4096 demo_filter = Some s'
        ∧ _enabled s' = _enabled demo_filter
        ∧ _bitmap s' = _bitmap demo_filter
        ∧ dom (heap s') = dom (heap demo_filter)
        ∧ (∀ i p, _bitmap demo_filter !! i = Some (Some p) →
                  heap s' !! p = Some (replicate (BITMAP_WORDS 65536) 0))
        ∧ (∀ t, in_range 65536 4096 t → accept 65536 t s' = Some false)
        ∧ ∀ t p, in_range 65536 4096 t →
                 bitmap 65536 t demo_filter = Some (Some p) →
                 ∃ s'', add 65536 t s' = Some s''
                        ∧ _bitmap s'' = _bitmap demo_filter
                        ∧ dom (heap s'') = dom (heap demo_filter)
                        ∧ accept 65536 t s'' = Some true.
Proof.
  apply (filter_clear_keeps_chunks 65536 4096).
  - lia.
  - reflexivity.
  - exists [Init (Some "7,8"%string); Add 7; Add 8]. by vm_compute.
Defined.


(** C3 on an interval of -1. *)
Lemma start_checks_interval_witness :
  let s := WallClock.mkState 0 false false None in
  let p := mkProcess ∅ [] in
  start 10000000 "wall" (Arguments.mk (-1) "cpu") 0 s p
  = (Err "interval must be positive", s, p).
Proof.
  apply (start_checks_interval 10000000 "wall"). simpl. lia.
Defined.

(** C9 with the default interval, on a fresh engine, [pthread_create]
    answering [EAGAIN]. *)
Lemma start_thread_failure_witness :
  let s := WallClock.mkState 0 false false None in
  let p := mkProcess ∅ [] in
  ∃ s' p',
    start 10000000 "wall" (Arguments.mk 0 "cpu") 11 s p
    = (Err "Unable to create timer thread", s', p')
    ∧ _running s' = true
    ∧ handlers p' !! SIGVTALRM = Some signalHandler
    ∧ handlers p' !! SIGPROF = Some signalHandler
    ∧ handlers p' !! WAKEUP_SIGNAL = Some wakeupHandler
    ∧ threads p' = threads p
    ∧ _thread s' = _thread s
    ∧ (_running s = false → s' ≠ s).
Proof.
  apply (start_thread_failure 10000000 "wall"); simpl; lia.
Defined.

(** C4 on the event "cpu", run in the example world. *)
Lemma idle_sampling_by_event_witness :
  let args := Arguments.mk 1000000 "cpu" in
  let s := WallClock.mkState 0 false false None in
  ∃ e s' p',
    start 10000000 "wall" args 0 s (mkProcess ∅ []) = (e, s', p')
    ∧ _sample_idle_threads s'
      = bool_decide (c_str (Arguments._event args) = c_str "wall")
    ∧ (c_str (Arguments._event args) ≠ c_str "wall" →
       ∀ fuel filter (w : nat),
         Forall spares_sleeping (timerLoop 65536 fuel s' filter w).1).
Proof.
  apply (idle_sampling_by_event 10000000 "wall" 65536). simpl. lia.
Defined.


(** The example filter with thread 7 alone accepts no other [int]. *)
Lemma demo_single_accepts t :
  is_int t → accept 65536 t demo_single = Some true → t = 7.
Proof.
  intros Hint Hacc.
  destruct (run_members 65536 4096 ltac:(lia) ltac:(reflexivity)
              [Init (Some "7"%string); Add 7] (new 4096) ∅)
    as (s & Hrun & Hwf & Hmem).
  - apply wf_new.
  - repeat (constructor; [simpl; try done; in_range_literal |]). constructor.
  - intros u Hu. rewrite (accept_new 65536 4096) by (done || lia).
    by rewrite bool_decide_false by set_solver.
  - assert (demo_single = s) as Heq by (unfold demo_single; by rewrite Hrun).
    rewrite Heq in Hacc.
    destruct (decide (0 ≤ t)) as [Hpos | Hneg].
    + rewrite Hmem in Hacc by (unfold is_int in Hint; in_range_literal).
      simpl in Hacc. injection Hacc as Hacc.
      apply bool_decide_eq_true in Hacc. set_solver.
    + exfalso. unfold ThreadFilter.accept, ThreadFilter.bitmap in Hacc.
      rewrite lookup_ge_None_2 in Hacc; [done |].
      rewrite (wf_length _ _ _ Hwf).
      unfold ThreadFilter.chunk_index, BITMAP_CAPACITY, to_u32.
      unfold is_int in Hint.
      assert (t mod 2 ^ 32 = t + 2 ^ 32) as ->.
      { symmetry. apply (Z.mod_unique _ _ (-1)); lia. }
      assert (4096 ≤ (t + 2 ^ 32) / (65536 * 8)).
      { apply Z.div_le_lower_bound; lia. }
      lia.
Qed.

(** C6 in the example world with that filter: thread 7 is the only one
    signalled. *)
Lemma loop_exclusion_witness :
  Forall (only_signals 7)
    (timerLoop 65536 3 (WallClock.mkState 10000000 true true None)
               demo_single 1%nat).1.
Proof.
  apply (loop_exclusion 65536 3 _ demo_single 1%nat 7).
  - by vm_compute.
  - apply demo_single_accepts.
Defined.

(** C7 on a round of the example world: the end sentinel is the
    seventeenth event. *)
Lemma loop_cadence_witness :
  let tr := (timerLoop 65536 3 (WallClock.mkState 10000000 true true None)
                       demo_filter 1%nat).1 in
  ∃ post', drop 17 tr = EvDelete :: EvSleep 0 10000000 :: post'
           ∧ fresh_round post'.
Proof.
  intros tr.
  destruct (loop_cadence 65536 3 (WallClock.mkState 10000000 true true None)
              demo_filter 1%nat) as (_ & Hsentinel & _).
  apply (Hsentinel (take 16 tr)). by vm_compute.
Defined.

(** C8 on thread 7 of the example world, which runs and is in the example
    filter. *)
Lemma signal_routing_witness :
  let c := mkLocals 1 demo_filter true true (0, 10000000) in
  for_loop 65536 c [7; 8] 0 1%nat =
    let '(state, w1) := OS_threadState 7 1%nat in
    match state with
    | THREAD_RUNNING =>
        let '(ok, w2) := OS_sendSignalToThread 7 SIGPROF w1 in
        emit [EvNext 7; EvSignal 7 THREAD_RUNNING SIGPROF ok]
             (for_loop 65536 c [8] (if ok then 0 + 1 else 0) w2)
    | THREAD_SLEEPING =>
        if sample_idle_threads c
        then
          let '(ok, w2) := OS_sendSignalToThread 7 SIGVTALRM w1 in
          emit [EvNext 7; EvSignal 7 THREAD_SLEEPING SIGVTALRM ok]
               (for_loop 65536 c [8] (if ok then 0 + 1 else 0) w2)
        else emit [EvNext 7] (for_loop 65536 c [8] 0 w1)
    | THREAD_INVALID => emit [EvNext 7] (for_loop 65536 c [8] 0 w1)
    end.
Proof.
  intros c. apply (signal_routing 65536 c 7 [8] 0 1%nat).
  - reflexivity.
  - lia.
  - simpl. lia.
  - intros _. by vm_compute.
Defined.

(** ** The model at work *)

(** What the example filter answers: a member, a non-member, an identifier
    past the last slot, the last addressable identifier. *)
Example demo_accept :
  accept 65536 7 demo_filter = Some true
  ∧ accept 65536 9 demo_filter = Some false
  ∧ accept 65536 (-1) demo_filter = None
  ∧ accept 65536 (2 ^ 31 - 1) demo_filter = Some false.
Proof. by vm_compute. Qed.

Example demo_strcmp :
  strcmp "wall" "wall" = 0 ∧ strcmp "wall" "walk" = 1
  ∧ strcmp "wal" "wall" = -108 ∧ strcmp "cpu" "wall" = -20.
Proof. by vm_compute. Qed.

(** One round in the example world with the example filter and idle
    sampling: threads 7 and 8 are signalled, nobody else. *)
Example demo_round :
  timerLoop 65536 3 (WallClock.mkState 10000000 true true None)
            demo_filter 1%nat
  = ([EvRunning true; EvListThreads [1; 2; 3; 4; 5; 6; 7; 8; 9; 10; 11; 12];
      EvNext 1; EvNext 2; EvNext 3; EvNext 4; EvNext 5; EvNext 6;
      EvNext 7; EvSignal 7 THREAD_RUNNING 27 true;
      EvNext 8; EvSignal 8 THREAD_SLEEPING 26 true;
      EvNext 9; EvNext 10; EvNext 11; EvNext 12;
      EvNext (-1); EvDelete; EvSleep 0 10000000; EvRunning false],
     Returned).
Proof. by vm_compute. Qed.

(** A tick over eleven running threads without filter: the signal to
    thread 4 gets lost, eight others are delivered, and threads 31 and 34
    wait in the enumerator. *)
Example demo_budget :
  let c := mkLocals 1 (new 4096) false false (0, 10000000) in
  let t := for_loop 65536 c [4; 7; 10; 13; 16; 19; 22; 25; 28; 31; 34] 0 0%nat
  in
  tick_exit t = Budget ∧ tick_count t = 8 ∧ tick_list t = Some [31; 34]
  ∧ visited (tick_trace t) = [4; 7; 10; 13; 16; 19; 22; 25; 28]
  ∧ delivered (tick_trace t) = 8.
Proof. by vm_compute. Qed.

(** A negative identifier from the enumerator, with filtering on: [accept]
    reads past [_bitmap]. *)
Example demo_undefined :
  let c := mkLocals 1 demo_filter true false (0, 10000000) in
  let t := for_loop 65536 c [7; -5; 8] 0 0%nat in
  tick_exit t = Undefined
  ∧ tick_trace t = [EvNext 7; EvSignal 7 THREAD_RUNNING 27 true; EvNext (-5)].
Proof. by vm_compute. Qed.

(** The history of the example filter under an allocator that has nothing
    to give: the first [add] writes through [NULL].  On the example filter
    itself an [add] into the chunk that is there does not ask. *)
Example demo_out_of_memory :
  run_under 65536 4096 (λ _, false)
    [Init (Some "7,8"%string); Add 7; Add 8] (new 4096) = None
  ∧ add_under 65536 false 9 demo_filter = add 65536 9 demo_filter.
Proof. by vm_compute. Qed.

(** ** Beyond the claims, at work *)


(** X2 on the chunk of threads 7 and 8, through a [clear], a [remove] and
    an [add] that allocates another chunk. *)
Lemma filter_chunks_stay_witness :
  let ops := [Clear; Remove 7; Add 600000] in
  let s' := default demo_filter (run 65536 4096 ops demo_filter) in
  _bitmap s' !! 0%nat = Some (Some 1%positive)
  ∧ is_Some (heap s' !! 1%positive).
Proof.
  intros ops s'.
  apply (filter_chunks_stay 65536 4096 ltac:(lia) ltac:(reflexivity)
           demo_filter s' ops).
  - exists [Init (Some "7,8"%string); Add 7; Add 8]. by vm_compute.
  - by vm_compute.
  - by vm_compute.
Defined.

(** X3 on the example filter. *)
Lemma filter_heap_accounted_witness :
  (∀ p, is_Some (heap demo_filter !! p)
        ↔ ∃ i, _bitmap demo_filter !! i = Some (Some p))
  ∧ (size (heap demo_filter) ≤ Z.to_nat 4096)%nat
  ∧ ∀ p ws, heap demo_filter !! p = Some ws →
            length ws = BITMAP_WORDS 65536
            ∧ Forall (λ w, 0 <= w < 2 ^ 32) ws.
Proof.
  apply (filter_heap_accounted 65536 4096).
  - lia.
  - reflexivity.
  - exists [Init (Some "7,8"%string); Add 7; Add 8]. by vm_compute.
Defined.

(** X4 on the example filter. *)
Lemma filter_destroy_frees_all_witness :
  ∃ s', destroy 4096 demo_filter = Some s' ∧ heap s' = ∅.
Proof.
  apply (filter_destroy_frees_all 65536 4096).
  - lia.
  - reflexivity.
  - exists [Init (Some "7,8"%string); Add 7; Add 8]. by vm_compute.
Defined.

(** X5 on thread 7 of the example filter. *)
Lemma filter_remove_settles_witness :
  let s1 := default demo_filter (remove 65536 7 demo_filter) in
  _bitmap s1 = _bitmap demo_filter
  ∧ dom (heap s1) = dom (heap demo_filter)
  ∧ remove 65536 7 s1 = Some s1.
Proof.
  intros s1. apply (filter_remove_settles 65536 demo_filter s1 7).
  by vm_compute.
Defined.

(** X6 on thread 7, a member of the example filter. *)
Lemma filter_membership_noop_witness :
  (accept 65536 7 demo_filter = Some true →
   add 65536 7 demo_filter = Some demo_filter)
  ∧ (accept 65536 7 demo_filter = Some false →
     remove 65536 7 demo_filter = Some demo_filter).
Proof.
  apply (filter_membership_noop 65536 4096).
  exists [Init (Some "7,8"%string); Add 7; Add 8]. by vm_compute.
Defined.

(** X7 on thread 600000, which is not in the example filter and whose
    chunk is not there, [calloc] returning a block. *)
Lemma filter_add_remove_round_trip_witness :
  ∃ s1 s2,
    add_under 65536 true 600000 demo_filter = Some s1
    ∧ remove 65536 600000 s1 = Some s2
    ∧ (∀ t', in_range 65536 4096 t' →
             accept 65536 t' s2 = accept 65536 t' demo_filter)
    ∧ (bitmap 65536 600000 demo_filter ≠ Some None → s2 = demo_filter)
    ∧ (bitmap 65536 600000 demo_filter = Some None →
       ∃ p, heap demo_filter !! p = None
            ∧ s2 = ThreadFilter.mkState
                     (<[chunk_index 65536 600000 := Some p]>
                        (_bitmap demo_filter))
                     (_enabled demo_filter)
                     (<[p := replicate (BITMAP_WORDS 65536) 0]>
                        (heap demo_filter))).
Proof.
  apply (filter_add_remove_round_trip 65536 4096).
  - lia.
  - reflexivity.
  - exists [Init (Some "7,8"%string); Add 7; Add 8]. by vm_compute.
  - in_range_literal.
  - by vm_compute.
  - reflexivity.
Defined.

(** X8 on the identifier -1, whatever [calloc] would answer. *)
Lemma filter_defined_on_range_witness :
  (is_Some (accept 65536 (-1) demo_filter) ↔ in_range 65536 4096 (-1))
  ∧ (is_Some (add_under 65536 false (-1) demo_filter)
     ↔ in_range 65536 4096 (-1)
       ∧ (bitmap 65536 (-1) demo_filter = Some None → false = true))
  ∧ (is_Some (remove 65536 (-1) demo_filter) ↔ in_range 65536 4096 (-1)).
Proof.
  apply (filter_defined_on_range 65536 4096).
  - lia.
  - reflexivity.
  - exists [Init (Some "7,8"%string); Add 7; Add 8]. by vm_compute.
  - unfold is_int. lia.
  - unfold BITMAP_CAPACITY. lia.
Defined.

(** X19 on the example filter. *)
Lemma filter_clear_idempotent_witness :
  ∃ s', clear 65536 4096 demo_filter = Some s'
        ∧ clear 65536 4096 s' = Some s'.
Proof.
  apply (filter_clear_idempotent 65536 4096).
  - lia.
  - reflexivity.
  - exists [Init (Some "7,8"%string); Add 7; Add 8]. by vm_compute.
Defined.

(** X20 on thread 600000, whose chunk the example filter has not
    allocated, [calloc] returning [NULL]. *)
Lemma filter_add_allocates_lazily_witness :
  add_under 65536 false 600000 demo_filter = None.
Proof.
  apply (filter_add_allocates_lazily 65536 4096 ltac:(lia) ltac:(reflexivity)
           false demo_filter 600000).
  - exists [Init (Some "7,8"%string); Add 7; Add 8]. by vm_compute.
  - in_range_literal.
  - by vm_compute.
  - reflexivity.
Defined.

(** X10 with the interval left at 0 and a default of 10 ms, in the example
    world. *)
Lemma loop_sleeps_valid_witness :
  ∃ e s' p',
    start 10000000 "wall" (Arguments.mk 0 "cpu") 0
          (WallClock.mkState 0 false false None) (mkProcess ∅ [])
    = (e, s', p')
    ∧ 0 < _interval s'
    ∧ ∀ fuel filter (w : nat),
        Forall valid_sleep (timerLoop 65536 fuel s' filter w).1.
Proof.
  apply (loop_sleeps_valid 10000000 "wall" 65536); simpl; lia.
Defined.

(** X11 with [pthread_create] failing, in the example world. *)
Lemma loop_signals_handled_witness :
  ∃ e s' p',
    start 10000000 "wall" (Arguments.mk 1000 "wall") 11
          (WallClock.mkState 0 false false None) (mkProcess ∅ [])
    = (e, s', p')
    ∧ ∀ fuel s0 filter (w : nat),
        Forall (handled p') (timerLoop 65536 fuel s0 filter w).1.
Proof.
  apply (loop_signals_handled 10000000 "wall" 65536). simpl. lia.
Defined.

(** X14 in the example world, on a filter fresh from the constructor. *)
Lemma loop_defined_without_filter_witness :
  (timerLoop 65536 3 (WallClock.mkState 10000000 true true None)
             (new 4096) 2%nat).2 ≠ Crashed.
Proof.
  apply (loop_defined_without_filter 65536). reflexivity.
Defined.

(** X15 in the example world with the example filter. *)
Lemma loop_defined_in_range_witness :
  (timerLoop 65536 3 (WallClock.mkState 10000000 true true None)
             demo_filter 2%nat).2 ≠ Crashed.
Proof.
  apply (loop_defined_in_range 65536 4096).
  - lia.
  - reflexivity.
  - exists [Init (Some "7,8"%string); Add 7; Add 8]. by vm_compute.
  - intros w0. simpl. repeat (constructor; [in_range_literal |]). constructor.
Defined.

(** X17 on a fresh engine, the thread being created. *)
Lemma start_then_stop_witness :
  let s := WallClock.mkState 0 false false None in
  let p := mkProcess ∅ [] in
  ∃ e s' p',
    start 10000000 "wall" (Arguments.mk 0 "wall") 0 s p = (e, s', p')
    ∧ handlers p' !! WAKEUP_SIGNAL = Some wakeupHandler
    ∧ (0 = 0 →
       ∃ s'', stop s' = Some (s'', [Kill (length (threads p)) WAKEUP_SIGNAL;
                                    Join (length (threads p))])
              ∧ _running s'' = false
              ∧ _interval s'' = _interval s'
              ∧ _sample_idle_threads s'' = _sample_idle_threads s')
    ∧ (0 ≠ 0 → _thread s = None → stop s' = None).
Proof.
  apply (start_then_stop 10000000 "wall"). simpl. lia.
Defined.
